(** * Ebisu: Bayesian recall model (src/ebisu/ebisu.py)

    A shallow embedding of the six functions of [ebisu.py], written twice.

    Exact arithmetic.  The first embedding takes Python floats as real
    numbers ([R]).  It carries the statements that rounding cannot change:
    the cache hint of [predictRecall], the agreement of the log-domain and
    the exact order, [defaultModel], and the termination of the bracket
    search on the function the code approximates.  The one operation on
    Python floats that raises is kept: [x / y] raises [ZeroDivisionError]
    when [y] is zero.  Divisions whose operands are numpy scalars (inside
    [gb1Moments] and the least-squares residual) do not raise.

    Binary64.  [Module Binary64] is the same code on IEEE 754 binary64
    numbers, the primitive floats whose operations are those of the
    hardware: rounding, absorption, underflow, overflow, infinities and NaN
    are what Python and numpy compute.  What the code returns at an input is
    stated there.

    Library functions.  In exact arithmetic [scipy.special.gammaln] is a
    parameter with the two facts that characterise it on the positive reals
    (the recurrence and convexity) as Section hypotheses; [Module
    EulerGamma] constructs the function and proves both, and
    [scipy.special.betaln] and [logsumexp] are written out from their
    definitions.  In binary64 every library function is a parameter, and a
    theorem assumes of it only what it states; [Module Reference] gives
    plain binary64 implementations to instantiate them.  The two solvers of
    [scipy.optimize] are parameters throughout. *)

From Stdlib Require Import Reals Lra Lia List Bool Arith.
From Stdlib Require Import ClassicalEpsilon.
From Stdlib Require Import ZArith Floats.
Import ListNotations.
Open Scope R_scope.

(** ** Exceptions and results *)

(** The exceptions a call can end with.  [InvalidArgument] is the rejection of
    the specification's error taxonomy; no path of the source raises it. *)
Inductive error : Type :=
| ZeroDivisionError
| AssertionError
| SolverError
| InvalidArgument.

Inductive outcome (A : Type) : Type :=
| Ok (a : A)
| Err (e : error).
Arguments Ok {A} a.
Arguments Err {A} e.

Definition bind {A B : Type} (m : outcome A) (k : A -> outcome B) : outcome B :=
  match m with
  | Ok a => k a
  | Err e => Err e
  end.

Notation "x <- m ;; k" := (bind m (fun x => k))
  (at level 61, m at next level, right associativity).

Definition is_ok {A : Type} (m : outcome A) : bool :=
  match m with Ok _ => true | Err _ => false end.

(** Python's [x / y] on floats. *)
Definition pydiv (x y : R) : outcome R :=
  if Req_dec_T y 0 then Err ZeroDivisionError else Ok (x / y).

(** Comparisons as the booleans the [while] and [assert] conditions test. *)
Definition Rltb (x y : R) : bool := if Rlt_dec x y then true else false.

(** Truthiness of an optional float: [None] and [0.0] are falsy. *)
Definition truthy (o : option R) : bool :=
  match o with
  | None => false
  | Some v => if Req_dec_T v 0 then false else true
  end.

(** ** Data model *)

(** [(alpha, beta, t)] *)
Definition BetaModel : Type := (R * R * R)%type.
(** [(a, b, p, q, t)] *)
Definition GB1Model : Type := (R * R * R * R * R)%type.

Definition valid (m : BetaModel) : Prop :=
  let '(alpha, beta, t) := m in 0 < alpha /\ 0 < beta /\ 0 < t.

(** ** The functions of ebisu.py *)

Section Ebisu.

(** scipy.special.gammaln *)
Variable gammaln : R -> R.

(** scipy.optimize.least_squares: residual function, initial guess, lower
    bounds, upper bounds ([None] is [np.inf]); [res.x] or a failure. *)
Variable least_squares :
  (R * R -> list R) -> R * R -> R * R -> option R * option R -> option (R * R).

(** scipy.optimize.root_scalar with a bracket: the root or a failure. *)
Variable root_scalar : (R -> R) -> R -> R -> option R.

(** scipy.special.betaln *)
Definition betaln (p q : R) : R := gammaln p + gammaln q - gammaln (p + q).

(** scipy.special.logsumexp with signs [b]: [log (sum (b * exp a))]. *)
Definition logsumexp (a b : list R) : R :=
  ln (fold_right Rplus 0 (map (fun '(x, s) => s * exp x) (combine a b))).

Definition cacheIndependent (prior : BetaModel) : R :=
  let '(alpha, beta, t) := prior in
  gammaln (alpha + beta) - gammaln alpha.

Definition predictRecall (prior : BetaModel) (tnow : R) (exact : bool)
    (independent : option R) : outcome R :=
  let '(alpha, beta, t) := prior in
  let independent :=
    if truthy independent
    then match independent with Some v => v | None => 0 end
    else gammaln (alpha + beta) - gammaln alpha in
  dt <- pydiv tnow t ;;
  let ret := gammaln (alpha + dt) - gammaln (alpha + beta + dt) + independent in
  Ok (if exact then exp ret else ret).

Definition gb1ToBeta (gb1 : GB1Model) : BetaModel :=
  let '(a, b, p, q, t) := gb1 in (p, q, t * a).

Definition failureMoments (model : BetaModel) (tnow : R) (num : nat)
    (returnLog : bool) : outcome (list R) :=
  let '(a, b, t0) := model in
  t <- pydiv tnow t0 ;;
  let s := map (fun n => gammaln (a + INR n * t) - gammaln (a + b + INR n * t))
               (seq 0 (num + 2)) in
  let marginal := logsumexp [nth 0 s 0; nth 1 s 0] [1; -1] in
  let ret := map (fun n => logsumexp [nth n s 0; nth (n + 1) s 0] [1; -1] - marginal)
                 (seq 1 num) in
  Ok (if returnLog then ret else map exp ret).

Definition gb1Moments (a b p q : R) (num : nat) (returnLog : bool) : list R :=
  let bpq := betaln p q in
  let logb := ln b in
  let ret := map (fun h => INR h * logb + betaln (p + INR h / a) q - bpq)
                 (seq 1 num) in
  if returnLog then ret else map exp ret.

Definition updateRecall (prior : BetaModel) (result : bool) (tnow : R)
    : outcome BetaModel :=
  let '(alpha, beta, t) := prior in
  dt <- pydiv tnow t ;;
  gb1 <- (if result then
            a <- pydiv 1 dt ;;
            Ok (a, 1, alpha + dt, beta, tnow)
          else
            mom <- failureMoments prior tnow 2 true ;;
            let f := fun '(b, d) =>
              map (fun '(x, y) => x - y)
                  (combine (gb1Moments (1 / d) 1 alpha b 2 true) mom) in
            match least_squares f (beta, dt) (1.01, 0) (None, None) with
            | Some (newBeta, newDelta) =>
                Ok (1 / newDelta, 1, alpha, newBeta, tnow)
            | None => Err SolverError
            end) ;;
  Ok (gb1ToBeta gb1).

(** The bracket scan of [modelToPercentileDecay].  A Python [while] need not
    terminate: each loop is run on [fuel] iterations, [None] when they are
    used up. *)
Definition bracket_width : R := 6.

Definition Bracket : Type := (R * R * R * R)%type.

Fixpoint scan_up (f : R -> R) (fuel : nat) (st : Bracket) : option Bracket :=
  let '(blow, flow, bhigh, fhigh) := st in
  if Rltb 0 flow && Rltb 0 fhigh then
    match fuel with
    | O => None
    | S fuel' =>
        scan_up f fuel' (bhigh, fhigh, bhigh + bracket_width, f (bhigh + bracket_width))
    end
  else Some st.

Fixpoint scan_down (f : R -> R) (fuel : nat) (st : Bracket) : option Bracket :=
  let '(blow, flow, bhigh, fhigh) := st in
  if Rltb flow 0 && Rltb fhigh 0 then
    match fuel with
    | O => None
    | S fuel' =>
        scan_down f fuel' (blow - bracket_width, f (blow - bracket_width), blow, flow)
    end
  else Some st.

Definition scan (f : R -> R) (fuel : nat) : option Bracket :=
  let blow := - bracket_width / 2 in
  let bhigh := bracket_width / 2 in
  match scan_up f fuel (blow, f blow, bhigh, f bhigh) with
  | Some st => scan_down f fuel st
  | None => None
  end.

(** The function whose root is sought, in log-delta. *)
Definition decay_f (model : BetaModel) (percentile : R) (lndelta : R) : R :=
  let '(alpha, beta, t0) := model in
  let logBab := betaln alpha beta in
  let logPercentile := ln percentile in
  let logMean := betaln (alpha + exp lndelta) beta - logBab in
  logMean - logPercentile.

Definition modelToPercentileDecay (fuel : nat) (model : BetaModel)
    (percentile : R) : option (outcome R) :=
  let '(alpha, beta, t0) := model in
  let f := decay_f model percentile in
  match scan f fuel with
  | None => None
  | Some (blow, flow, bhigh, fhigh) =>
      Some (if Rltb 0 flow && Rltb fhigh 0 then
              match root_scalar f blow bhigh with
              | Some root => Ok (exp root * t0)
              | None => Err SolverError
              end
            else Err AssertionError)
  end.

(** [beta or alpha]: a falsy [beta] ([None] or zero) gives [alpha]. *)
Definition defaultModel (t : R) (alpha : R) (beta : option R) : BetaModel :=
  (alpha, if truthy beta then match beta with Some b => b | None => alpha end
          else alpha, t).

End Ebisu.

(** Default arguments of the source: [predictRecall(exact=False,
    independent=None)], [modelToPercentileDecay(percentile=0.5)],
    [defaultModel(alpha=3.0, beta=None)]. *)
Definition default_alpha : R := 3.
Definition default_percentile : R := 1 / 2.

(** The state of the scan when the upper end of the window is [b]. *)
Definition window (f : R -> R) (b : R) : Bracket :=
  (b - bracket_width, f (b - bracket_width), b, f b).

(** [true] on the rejection the specification names. *)
Definition rejected {A : Type} (m : outcome A) : bool :=
  match m with
  | Err InvalidArgument => true
  | _ => false
  end.

(** ** The library functions, constructed *)

(** The limit of a real sequence (any number when it has none). *)
Definition lim (u : nat -> R) : R :=
  epsilon (inhabits 0) (fun l => Un_cv u l).

Module EulerGamma.

(** [logprod x n = sum over k = 1..n of (ln k - ln (x + k))] *)
Fixpoint logprod (x : R) (n : nat) : R :=
  match n with
  | O => 0
  | S m => logprod x m + (ln (INR n) - ln (x + INR n))
  end.

(** Euler's product for the gamma function, in logarithms:
    [ln (n^x * n! / (x (x+1) ... (x+n)))] at [n = S m]. *)
Definition euler (x : R) (m : nat) : R :=
  x * ln (INR (S m)) + logprod x (S m) - ln x.

(** The logarithm of the gamma function on the positive reals. *)
Definition lngamma (x : R) : R := lim (euler x).

End EulerGamma.

(** ** Contracts of the library functions *)

(** Convexity on the positive reals. *)
Definition convex_pos (g : R -> R) : Prop :=
  forall x y l, 0 < x -> 0 < y -> 0 <= l <= 1 ->
    g (l * x + (1 - l) * y) <= l * g x + (1 - l) * g y.

(** [Gamma (x + 1) = x * Gamma x], in logarithms. *)
Definition gamma_recurrence (g : R -> R) : Prop :=
  forall x, 0 < x -> g (x + 1) = g x + ln x.

(** ** The functions of ebisu.py in binary64 *)

(** The same six functions on IEEE 754 binary64 numbers, the floats of
    Python and numpy: every sum, product and quotient is rounded to nearest,
    and overflows, infinities and NaN are as the hardware has them.  The
    library functions are parameters: nothing is assumed of them but what a
    theorem states. *)
Module Binary64.

Local Open Scope float_scope.
#[local] Set Warnings "-inexact-float".

(** Python's [x / y] on floats: [ZeroDivisionError] when [y] is [0.0] or
    [-0.0]. *)
Definition pydiv (x y : float) : outcome float :=
  if y =? 0 then Err ZeroDivisionError else Ok (x / y).

(** Truthiness of an optional float: [None], [0.0] and [-0.0] are falsy, NaN
    is truthy. *)
Definition truthy (o : option float) : bool :=
  match o with
  | None => false
  | Some v => negb (v =? 0)
  end.

(** [float(n)] for a Python [int] that a float holds exactly. *)
Definition of_nat (n : nat) : float := of_uint63 (Uint63.of_Z (Z.of_nat n)).

(** [(alpha, beta, t)] *)
Definition BetaModel : Type := (float * float * float)%type.
(** [(a, b, p, q, t)] *)
Definition GB1Model : Type := (float * float * float * float * float)%type.

(** A valid model: positive parameters and a finite reference time. *)
Definition valid (m : BetaModel) : Prop :=
  let '(alpha, beta, t) := m in
  (0 <? alpha) = true /\ (0 <? beta) = true /\ (0 <? t) = true /\
  is_finite t = true.

Section Functions.

(** scipy.special.gammaln and scipy.special.betaln *)
Variable gammaln : float -> float.
Variable betaln : float -> float -> float.

(** numpy.exp and numpy.log *)
Variable exp : float -> float.
Variable log : float -> float.

(** scipy.special.logsumexp with the weights [b] *)
Variable logsumexp : list float -> list float -> float.

(** scipy.optimize.least_squares: residual function, initial guess, lower
    bounds, upper bounds; [res.x] or a failure. *)
Variable least_squares :
  (float * float -> list float) -> float * float -> float * float ->
  float * float -> option (float * float).

(** scipy.optimize.root_scalar with a bracket: the root or a failure. *)
Variable root_scalar : (float -> float) -> float -> float -> option float.

Definition cacheIndependent (prior : BetaModel) : float :=
  let '(alpha, beta, t) := prior in
  gammaln (alpha + beta) - gammaln alpha.

Definition predictRecall (prior : BetaModel) (tnow : float) (exact : bool)
    (independent : option float) : outcome float :=
  let '(alpha, beta, t) := prior in
  let independent :=
    if truthy independent
    then match independent with Some v => v | None => 0 end
    else gammaln (alpha + beta) - gammaln alpha in
  dt <- pydiv tnow t ;;
  let ret := gammaln (alpha + dt) - gammaln (alpha + beta + dt) + independent in
  Ok (if exact then exp ret else ret).

Definition gb1ToBeta (gb1 : GB1Model) : BetaModel :=
  let '(a, b, p, q, t) := gb1 in (p, q, t * a).

Definition failureMoments (model : BetaModel) (tnow : float) (num : nat)
    (returnLog : bool) : outcome (list float) :=
  let '(a, b, t0) := model in
  t <- pydiv tnow t0 ;;
  let s := map (fun n => gammaln (a + of_nat n * t) - gammaln (a + b + of_nat n * t))
               (seq 0 (num + 2)) in
  let marginal := logsumexp [nth 0 s 0; nth 1 s 0] [1; -1] in
  let ret := map (fun n => logsumexp [nth n s 0; nth (n + 1) s 0] [1; -1] - marginal)
                 (seq 1 num) in
  Ok (if returnLog then ret else map exp ret).

Definition gb1Moments (a b p q : float) (num : nat) (returnLog : bool)
    : list float :=
  let bpq := betaln p q in
  let logb := log b in
  let ret := map (fun h => of_nat h * logb + betaln (p + of_nat h / a) q - bpq)
                 (seq 1 num) in
  if returnLog then ret else map exp ret.

Definition updateRecall (prior : BetaModel) (result : bool) (tnow : float)
    : outcome BetaModel :=
  let '(alpha, beta, t) := prior in
  dt <- pydiv tnow t ;;
  gb1 <- (if result then
            a <- pydiv 1 dt ;;
            Ok (a, 1, alpha + dt, beta, tnow)
          else
            mom <- failureMoments prior tnow 2 true ;;
            let f := fun '(b, d) =>
              map (fun '(x, y) => x - y)
                  (combine (gb1Moments (1 / d) 1 alpha b 2 true) mom) in
            match least_squares f (beta, dt) (1.01, 0) (infinity, infinity) with
            | Some (newBeta, newDelta) =>
                Ok (1 / newDelta, 1, alpha, newBeta, tnow)
            | None => Err SolverError
            end) ;;
  Ok (gb1ToBeta gb1).

(** The bracket scan of [modelToPercentileDecay], each loop on [fuel]
    iterations. *)
Definition bracket_width : float := 6.

Definition Bracket : Type := (float * float * float * float)%type.

Fixpoint scan_up (f : float -> float) (fuel : nat) (st : Bracket)
    : option Bracket :=
  let '(blow, flow, bhigh, fhigh) := st in
  if (0 <? flow) && (0 <? fhigh) then
    match fuel with
    | O => None
    | S fuel' =>
        scan_up f fuel' (bhigh, fhigh, bhigh + bracket_width, f (bhigh + bracket_width))
    end
  else Some st.

Fixpoint scan_down (f : float -> float) (fuel : nat) (st : Bracket)
    : option Bracket :=
  let '(blow, flow, bhigh, fhigh) := st in
  if (flow <? 0) && (fhigh <? 0) then
    match fuel with
    | O => None
    | S fuel' =>
        scan_down f fuel' (blow - bracket_width, f (blow - bracket_width), blow, flow)
    end
  else Some st.

Definition scan (f : float -> float) (fuel : nat) : option Bracket :=
  let blow := - bracket_width / 2 in
  let bhigh := bracket_width / 2 in
  match scan_up f fuel (blow, f blow, bhigh, f bhigh) with
  | Some st => scan_down f fuel st
  | None => None
  end.

Definition decay_f (model : BetaModel) (percentile : float) (lndelta : float)
    : float :=
  let '(alpha, beta, t0) := model in
  let logBab := betaln alpha beta in
  let logPercentile := log percentile in
  let logMean := betaln (alpha + exp lndelta) beta - logBab in
  logMean - logPercentile.

Definition modelToPercentileDecay (fuel : nat) (model : BetaModel)
    (percentile : float) : option (outcome float) :=
  let '(alpha, beta, t0) := model in
  let f := decay_f model percentile in
  match scan f fuel with
  | None => None
  | Some (blow, flow, bhigh, fhigh) =>
      Some (if (0 <? flow) && (fhigh <? 0) then
              match root_scalar f blow bhigh with
              | Some root => Ok (exp root * t0)
              | None => Err SolverError
              end
            else Err AssertionError)
  end.

(** The round trip of the inverter: the recall predicted at the time
    [modelToPercentileDecay] returns.  (That time is a numpy float, whose
    quotient by a zero [t] does not raise; the statements about the round
    trip have [t] not zero.) *)
Definition roundtrip (fuel : nat) (model : BetaModel) (percentile : float)
    : option (outcome float) :=
  match modelToPercentileDecay fuel model percentile with
  | None => None
  | Some r => Some (t1 <- r ;; predictRecall model t1 true None)
  end.

End Functions.

End Binary64.

(** ** Binary64 implementations of the library functions *)

(** Plain implementations of the library functions in binary64 arithmetic.
    They stand in for scipy and numpy where a statement about every
    [gammaln], [exp] or solver is instantiated. *)
Module Reference.

Local Open Scope float_scope.
#[local] Set Warnings "-inexact-float".

Definition ln2 : float := 0x1.62e42fefa39efp-1.

(** [1 + x/1 (1 + x/2 (... (1 + x/n)))] *)
Fixpoint exp_series (x : float) (n : nat) (acc : float) : float :=
  match n with
  | O => acc
  | S k => exp_series x k (1 + x / Binary64.of_nat n * acc)
  end.

Fixpoint squarings (n : nat) (y : float) : float :=
  match n with
  | O => y
  | S k => squarings k (y * y)
  end.

(** [exp x = (exp (x / 1024)) ^ 1024] *)
Definition exp (x : float) : float :=
  if x <? -746 then 0
  else if 710 <? x then infinity
  else squarings 10 (exp_series (x / 1024) 20 1).

(** [z + z^3/3 + z^5/5 + ...], [n] terms from [z^k / k] *)
Fixpoint atanh_series (z2 : float) (n : nat) (k : float) (zk : float) : float :=
  match n with
  | O => 0
  | S n' => zk / k + atanh_series z2 n' (k + 2) (zk * z2)
  end.

(** [log (m * 2^e) = e * log 2 + 2 * atanh ((m - 1) / (m + 1))] *)
Definition log (x : float) : float :=
  if x <? 0 then nan
  else if x =? 0 then neg_infinity
  else if x =? infinity then infinity
  else if is_nan x then nan
  else
    let '(m, se) := frshiftexp x in
    let e := of_uint63 se - 2101 in
    let z := (m - 1) / (m + 1) in
    e * ln2 + 2 * atanh_series (z * z) 24 1 z.

(** Stirling's series for [log (Gamma y)], [y >= 8]. *)
Definition stirling (y : float) : float :=
  let r := 1 / y in
  let r2 := r * r in
  (y - 0.5) * log y - y + 0x1.d67f1c864beb5p-1
  + r * (1 / 12 - r2 * (1 / 360 - r2 * (1 / 1260 - r2 / 1680))).

(** [Gamma x = Gamma (x + 8) / (x (x + 1) ... (x + 7))] below [8]. *)
Definition gammaln (x : float) : float :=
  if x =? infinity then infinity
  else if x <? 8 then
    stirling (x + 8)
    - log (x * (x + 1) * (x + 2) * (x + 3) * (x + 4) * (x + 5) * (x + 6) * (x + 7))
  else stirling x.

Definition betaln (a b : float) : float :=
  gammaln a + gammaln b - gammaln (a + b).

Definition logsumexp (a b : list float) : float :=
  log (fold_right add 0 (map (fun '(x, s) => s * exp x) (combine a b))).

(** Bisection on a bracket with [f lo > 0 > f hi]. *)
Fixpoint bisect (f : float -> float) (n : nat) (lo hi : float) : float :=
  match n with
  | O => (lo + hi) / 2
  | S k =>
      let mid := (lo + hi) / 2 in
      if 0 <? f mid then bisect f k mid hi else bisect f k lo mid
  end.

Definition root_scalar (f : float -> float) (lo hi : float) : option float :=
  Some (bisect f 60 lo hi).

(** A least-squares solver that gives up at once; the success branch of
    [updateRecall] never calls the solver. *)
Definition least_squares (f : float * float -> list float)
    (x0 lb ub : float * float) : option (float * float) := None.

End Reference.

(** ** Classes of binary64 numbers *)

(** A zero, a positive finite number or [+infinity]: not NaN and not below
    zero. *)
Definition nonneg (x : spec_float) : Prop :=
  (exists s, x = S754_zero s) \/ x = S754_infinity false \/
  exists m e, x = S754_finite false m e.

(** The values the scan carries are the values of [f] at the ends of the
    window. *)
Definition carries (f : float -> float) (st : Binary64.Bracket) : Prop :=
  let '(blow, flow, bhigh, fhigh) := st in flow = f blow /\ fhigh = f bhigh.

(** * Exact arithmetic *)

(** ** Basic facts *)

Lemma pydiv_ok (x y : R) : y <> 0 -> pydiv x y = Ok (x / y).
Proof.
  intros Hy. unfold pydiv. destruct (Req_dec_T y 0) as [E | _]; [contradiction | reflexivity].
Qed.

Lemma pydiv_zero (x : R) : pydiv x 0 = Err ZeroDivisionError.
Proof.
  unfold pydiv. destruct (Req_dec_T 0 0) as [_ | N]; [reflexivity | now elim N].
Qed.

Lemma Rltb_true (x y : R) : x < y -> Rltb x y = true.
Proof.
  intros H. unfold Rltb. destruct (Rlt_dec x y); [reflexivity | contradiction].
Qed.

Lemma Rltb_false (x y : R) : y <= x -> Rltb x y = false.
Proof.
  intros H. unfold Rltb. destruct (Rlt_dec x y); [lra | reflexivity].
Qed.

Lemma truthy_some (v : R) : v <> 0 -> truthy (Some v) = true.
Proof.
  intros H. simpl. destruct (Req_dec_T v 0); [contradiction | reflexivity].
Qed.

Lemma truthy_zero : truthy (Some 0) = false.
Proof.
  simpl. destruct (Req_dec_T 0 0) as [_ | N]; [reflexivity | now elim N].
Qed.

(** ** defaultModel *)

(** C9 (as amended).  For every [t], [alpha] and every [beta] that is omitted
    or is a non-zero number, [defaultModel t alpha beta] is the triple
    [(alpha, beta if beta is not None else alpha, t)]. *)
Theorem defaultModel_spec (t alpha : R) (beta : option R) :
  beta <> Some 0 ->
  defaultModel t alpha beta
  = (alpha, match beta with Some b => b | None => alpha end, t).
Proof.
  intros Hb. unfold defaultModel. destruct beta as [b | ]; [ | reflexivity].
  rewrite truthy_some; [reflexivity | ].
  intros E. apply Hb. now rewrite E.
Qed.

(** The first scenario of the specification: [defaultModel(t=10, alpha=3.0)]
    is [(3.0, 3.0, 10)]. *)
Lemma defaultModel_spec_witness :
  None <> Some 0 /\ defaultModel 10 default_alpha None = (3, 3, 10).
Proof.
  split; [discriminate | ].
  rewrite (defaultModel_spec 10 default_alpha None); [reflexivity | discriminate].
Defined.

(** C9, refuted as stated: a supplied [beta] of zero is not returned; the
    second component is [alpha]. *)
Lemma defaultModel_zero_beta :
  defaultModel 10 3 (Some 0) = (3, 3, 10) /\
  defaultModel 10 3 (Some 0) <> (3, 0, 10).
Proof.
  assert (E : defaultModel 10 3 (Some 0) = (3, 3, 10)).
  { unfold defaultModel. now rewrite truthy_zero. }
  split; [exact E | ].
  rewrite E. intros H. injection H as H. lra.
Qed.

(** ** Properties that hold for any [gammaln] *)

Section AnyGammaln.

Variable gammaln : R -> R.

Lemma predictRecall_eq (alpha beta t tnow : R) (exact : bool) :
  t <> 0 ->
  predictRecall gammaln (alpha, beta, t) tnow exact None
  = Ok (let ret := gammaln (alpha + tnow / t) - gammaln (alpha + beta + tnow / t)
                   + (gammaln (alpha + beta) - gammaln alpha) in
        if exact then exp ret else ret).
Proof.
  intros Ht. unfold predictRecall. simpl.
  rewrite pydiv_ok by assumption. reflexivity.
Qed.

(** C5.  Passing [independent=cacheIndependent(model)] gives the same value
    as omitting [independent]; this holds for every model, elapsed time and
    value of [exact], valid or not. *)
Theorem predictRecall_cached (prior : BetaModel) (tnow : R) (exact : bool) :
  predictRecall gammaln prior tnow exact (Some (cacheIndependent gammaln prior))
  = predictRecall gammaln prior tnow exact None.
Proof.
  destruct prior as [[alpha beta] t].
  unfold predictRecall, cacheIndependent.
  destruct (truthy (Some (gammaln (alpha + beta) - gammaln alpha))); reflexivity.
Qed.


End AnyGammaln.

(** ** Properties that rest on the convexity of [gammaln] *)

(** The logarithm of the expected recall after [d = tnow / t] reference
    times: the value [ret] of [predictRecall], and [logMean] of
    [modelToPercentileDecay]. *)
Definition log_recall (gammaln : R -> R) (alpha beta d : R) : R :=
  gammaln (alpha + d) - gammaln (alpha + beta + d)
  + (gammaln (alpha + beta) - gammaln alpha).

Section ConvexGammaln.

Variable gammaln : R -> R.
Hypothesis gammaln_convex : convex_pos gammaln.


(** The chord inequality: between [x] and [z] the graph is below the chord. *)
Lemma chord (x y z : R) :
  0 < x -> x <= y <= z -> x < z ->
  (z - x) * gammaln y <= (z - y) * gammaln x + (y - x) * gammaln z.
Proof.
  intros Hx Hy Hxz.
  pose (l := (z - y) / (z - x)).
  assert (Hl : 0 <= l <= 1).
  { unfold l. split.
    - apply Rmult_le_pos; [lra | left; apply Rinv_0_lt_compat; lra].
    - apply Rmult_le_reg_r with (z - x); [lra | ].
      unfold Rdiv. rewrite Rmult_assoc, Rinv_l by lra. lra. }
  assert (Ey : l * x + (1 - l) * z = y) by (unfold l; field; lra).
  assert (El : l * (z - x) = z - y) by (unfold l; field; lra).
  pose proof (gammaln_convex x z l Hx ltac:(lra) Hl) as C.
  rewrite Ey in C.
  apply Rmult_le_compat_l with (r := z - x) in C; [ | lra].
  replace ((z - x) * (l * gammaln x + (1 - l) * gammaln z))
    with ((l * (z - x)) * gammaln x + ((z - x) - l * (z - x)) * gammaln z) in C by ring.
  rewrite El in C. replace (z - x - (z - y)) with (y - x) in C by ring. exact C.
Qed.

(** Increments over a fixed step grow with the starting point. *)
Lemma increasing_differences (x b d : R) :
  0 < x -> 0 <= b -> 0 <= d ->
  gammaln (x + d) - gammaln x <= gammaln (x + b + d) - gammaln (x + b).
Proof.
  intros Hx Hb Hd.
  destruct (Req_dec_T b 0) as [-> | Nb].
  { replace (x + 0 + d) with (x + d) by ring.
    replace (x + 0) with x by ring. lra. }
  destruct (Req_dec_T d 0) as [-> | Nd].
  { replace (x + b + 0) with (x + b) by ring.
    replace (x + 0) with x by ring. lra. }
  pose proof (chord x (x + d) (x + b + d) Hx ltac:(lra) ltac:(lra)) as C1.
  pose proof (chord x (x + b) (x + b + d) Hx ltac:(lra) ltac:(lra)) as C2.
  replace (x + b + d - x) with (b + d) in C1, C2 by ring.
  replace (x + b + d - (x + d)) with b in C1 by ring.
  replace (x + d - x) with d in C1 by ring.
  replace (x + b + d - (x + b)) with d in C2 by ring.
  replace (x + b - x) with b in C2 by ring.
  apply Rmult_le_reg_l with (b + d); [lra | ]. lra.
Qed.

Lemma log_recall_zero (alpha beta : R) : log_recall gammaln alpha beta 0 = 0.
Proof.
  unfold log_recall. rewrite !Rplus_0_r. ring.
Qed.

(** Recall decays: [log_recall] does not increase with the elapsed time. *)
Lemma log_recall_decreasing (alpha beta d1 d2 : R) :
  0 < alpha -> 0 < beta -> 0 <= d1 <= d2 ->
  log_recall gammaln alpha beta d2 <= log_recall gammaln alpha beta d1.
Proof.
  intros Ha Hb Hd. unfold log_recall.
  pose proof (increasing_differences (alpha + d1) beta (d2 - d1)
                ltac:(lra) ltac:(lra) ltac:(lra)) as I.
  replace (alpha + d1 + (d2 - d1)) with (alpha + d2) in I by ring.
  replace (alpha + d1 + beta + (d2 - d1)) with (alpha + beta + d2) in I by ring.
  replace (alpha + d1 + beta) with (alpha + beta + d1) in I by ring.
  lra.
Qed.

Lemma log_recall_nonpos (alpha beta d : R) :
  0 < alpha -> 0 < beta -> 0 <= d -> log_recall gammaln alpha beta d <= 0.
Proof.
  intros Ha Hb Hd. rewrite <- (log_recall_zero alpha beta).
  apply log_recall_decreasing; lra.
Qed.

Lemma predictRecall_log_recall (alpha beta t tnow : R) (exact : bool) :
  t <> 0 ->
  predictRecall gammaln (alpha, beta, t) tnow exact None
  = Ok (if exact then exp (log_recall gammaln alpha beta (tnow / t))
        else log_recall gammaln alpha beta (tnow / t)).
Proof.
  intros Ht. now rewrite predictRecall_eq.
Qed.

(** In exact arithmetic the recall predicted for a valid model and
    [tnow > 0] is a number of the closed interval [[0, 1]].  Binary64 departs
    from this where the sums round. *)
Lemma predictRecall_probability_exact (prior : BetaModel) (tnow : R) :
  valid prior -> 0 < tnow ->
  exists p, predictRecall gammaln prior tnow true None = Ok p /\ 0 <= p <= 1.
Proof.
  destruct prior as [[alpha beta] t]. intros (Ha & Hb & Ht) Hn.
  eexists. split; [apply predictRecall_log_recall; lra | ].
  assert (Hd : 0 < tnow / t) by (apply Rdiv_lt_0_compat; assumption).
  split; [left; apply exp_pos | ].
  rewrite <- exp_0.
  destruct (log_recall_nonpos alpha beta (tnow / t) Ha Hb ltac:(lra)) as [L | E].
  - left. now apply exp_increasing.
  - rewrite E. lra.
Qed.

(** In exact arithmetic the recall predicted for a valid model does not
    increase with the elapsed time.  Binary64 departs from this where the
    sums round. *)
Lemma predictRecall_monotone_exact (prior : BetaModel) (tnow1 tnow2 : R) :
  valid prior -> 0 < tnow1 -> tnow1 < tnow2 ->
  exists p1 p2,
    predictRecall gammaln prior tnow1 true None = Ok p1 /\
    predictRecall gammaln prior tnow2 true None = Ok p2 /\
    p1 >= p2.
Proof.
  destruct prior as [[alpha beta] t]. intros (Ha & Hb & Ht) H1 H12.
  do 2 eexists.
  split; [apply predictRecall_log_recall; lra | ].
  split; [apply predictRecall_log_recall; lra | ].
  assert (Hd1 : 0 < tnow1 / t) by (apply Rdiv_lt_0_compat; assumption).
  assert (Hd : tnow1 / t < tnow2 / t).
  { unfold Rdiv. apply Rmult_lt_compat_r; [now apply Rinv_0_lt_compat | assumption]. }
  apply Rle_ge.
  destruct (log_recall_decreasing alpha beta (tnow1 / t) (tnow2 / t) Ha Hb ltac:(lra))
    as [L | E].
  - left. now apply exp_increasing.
  - rewrite E. lra.
Qed.

End ConvexGammaln.

(** ** The gamma function of [EulerGamma] meets the contracts *)

Section Limits.

Lemma lim_unique (u : nat -> R) (l : R) : Un_cv u l -> lim u = l.
Proof.
  intros H. unfold lim.
  apply UL_sequence with u; [ | exact H].
  apply epsilon_spec. now exists l.
Qed.

Lemma cv_const (c : R) : Un_cv (fun _ => c) c.
Proof.
  intros eps Heps. exists 0%nat. intros n _.
  unfold Rdist. rewrite Rminus_diag, Rabs_R0. lra.
Qed.

Lemma cv_scale (u : nat -> R) (l c : R) :
  Un_cv u l -> Un_cv (fun n => c * u n) (c * l).
Proof.
  intros H. apply (CV_mult (fun _ => c) u c l); [apply cv_const | exact H].
Qed.

(** A sequence squeezed between [0] and [c / (n + 1)] tends to [0]. *)
Lemma cv_squeeze_inv (u : nat -> R) (c : R) :
  (forall n, 0 <= u n <= c / INR (S n)) -> Un_cv u 0.
Proof.
  intros H eps Heps.
  destruct (INR_archimed eps c Heps) as [N HN].
  exists N. intros n Hn.
  destruct (H n) as [H0 H1].
  unfold Rdist. rewrite Rminus_0_r, Rabs_pos_eq by assumption.
  assert (Sn : 0 < INR (S n)) by (apply lt_0_INR; lia).
  apply Rle_lt_trans with (c / INR (S n)); [assumption | ].
  apply Rmult_lt_reg_r with (INR (S n)); [assumption | ].
  unfold Rdiv. rewrite Rmult_assoc, Rinv_l by lra. rewrite Rmult_1_r.
  assert (INR N <= INR n) by (apply le_INR; lia).
  rewrite S_INR. nra.
Qed.

End Limits.

Section Logarithm.

Lemma ln_le_mono (x y : R) : 0 < x -> x <= y -> ln x <= ln y.
Proof.
  intros Hx [L | E]; [left; now apply ln_increasing | rewrite E; lra].
Qed.

(** The tangent at [1] is above the logarithm. *)
Lemma ln_tangent (x : R) : 0 < x -> ln x <= x - 1.
Proof.
  intros Hx. rewrite <- (ln_exp (x - 1)).
  apply ln_le_mono; [assumption | ].
  pose proof (exp_ineq1_le (x - 1)). lra.
Qed.

Lemma ln_diff_upper (a b : R) : 0 < a -> 0 < b -> ln a - ln b <= (a - b) / b.
Proof.
  intros Ha Hb.
  replace (ln a - ln b) with (ln (a / b)).
  - replace ((a - b) / b) with (a / b - 1) by (field; lra).
    apply ln_tangent. now apply Rdiv_lt_0_compat.
  - unfold Rdiv. rewrite ln_mult, ln_Rinv by (try apply Rinv_0_lt_compat; assumption).
    ring.
Qed.

Lemma ln_diff_lower (a b : R) : 0 < a -> 0 < b -> (a - b) / a <= ln a - ln b.
Proof.
  intros Ha Hb. pose proof (ln_diff_upper b a Hb Ha) as H.
  replace ((a - b) / a) with (- ((b - a) / a)) by (field; lra). lra.
Qed.

(** The logarithm is concave. *)
Lemma ln_concave (a b l : R) :
  0 < a -> 0 < b -> 0 <= l <= 1 ->
  l * ln a + (1 - l) * ln b <= ln (l * a + (1 - l) * b).
Proof.
  intros Ha Hb Hl.
  set (m := l * a + (1 - l) * b).
  assert (Hm : 0 < m).
  { unfold m. destruct (Req_dec_T l 0) as [-> | N]; [lra | ].
    assert (0 < l * a) by (apply Rmult_lt_0_compat; lra).
    assert (0 <= (1 - l) * b) by (apply Rmult_le_pos; lra). lra. }
  pose proof (ln_diff_upper a m Ha Hm) as Ua.
  pose proof (ln_diff_upper b m Hb Hm) as Ub.
  assert (S : l * ((a - m) / m) + (1 - l) * ((b - m) / m) = 0).
  { unfold m. field. fold m. lra. }
  assert (l * (ln a - ln m) <= l * ((a - m) / m))
    by (apply Rmult_le_compat_l; lra).
  assert ((1 - l) * (ln b - ln m) <= (1 - l) * ((b - m) / m))
    by (apply Rmult_le_compat_l; lra).
  lra.
Qed.

End Logarithm.

Section EulerFacts.

Import EulerGamma.

Lemma cv_ext (u v : nat -> R) (l : R) :
  (forall n, u n = v n) -> Un_cv u l -> Un_cv v l.
Proof.
  intros E H eps Heps. destruct (H eps Heps) as [N HN].
  exists N. intros n Hn. rewrite <- E. now apply HN.
Qed.

Lemma INR_S_pos (n : nat) : 0 < INR (S n).
Proof. apply lt_0_INR. lia. Qed.

Lemma euler_step (x : R) (n : nat) :
  euler x (S n) - euler x n
  = x * (ln (INR (S n) + 1) - ln (INR (S n)))
    - (ln (x + INR (S n) + 1) - ln (INR (S n) + 1)).
Proof.
  unfold euler. change (logprod x (S (S n)))
    with (logprod x (S n) + (ln (INR (S (S n))) - ln (x + INR (S (S n))))).
  rewrite (S_INR (S n)).
  replace (x + (INR (S n) + 1)) with (x + INR (S n) + 1) by ring. ring.
Qed.

(** Consecutive terms of Euler's sequence: it grows, by less than a
    telescoping amount. *)
Lemma euler_step_bounds (x : R) (n : nat) :
  0 < x ->
  0 <= euler x (S n) - euler x n
    <= x * (1 + x) * (/ INR (S n) - / (INR (S n) + 1)).
Proof.
  intros Hx. rewrite euler_step.
  pose proof (INR_S_pos n) as Ha. set (a := INR (S n)) in *.
  pose proof (ln_diff_lower (a + 1) a ltac:(lra) Ha) as L1.
  pose proof (ln_diff_upper (a + 1) a ltac:(lra) Ha) as U1.
  pose proof (ln_diff_lower (x + a + 1) (a + 1) ltac:(lra) ltac:(lra)) as L2.
  pose proof (ln_diff_upper (x + a + 1) (a + 1) ltac:(lra) ltac:(lra)) as U2.
  replace ((a + 1 - a) / (a + 1)) with (/ (a + 1)) in L1 by (field; lra).
  replace ((a + 1 - a) / a) with (/ a) in U1 by (field; lra).
  replace ((x + a + 1 - (a + 1)) / (x + a + 1)) with (x / (x + a + 1)) in L2
    by (field; lra).
  replace ((x + a + 1 - (a + 1)) / (a + 1)) with (x * / (a + 1)) in U2
    by (field; lra).
  assert (M1 : x * / (a + 1) <= x * (ln (a + 1) - ln a))
    by (apply Rmult_le_compat_l; lra).
  assert (M2 : x * (ln (a + 1) - ln a) <= x * / a)
    by (apply Rmult_le_compat_l; lra).
  split; [lra | ].
  assert (E : x * (1 + x) * (/ a - / (a + 1)) - (x * / a - x / (x + a + 1))
              = x * x * (x + 1) / (a * (a + 1) * (x + a + 1))) by (field; lra).
  assert (P : 0 <= x * x * (x + 1) / (a * (a + 1) * (x + a + 1))).
  { apply Rmult_le_pos.
    - repeat apply Rmult_le_pos; lra.
    - left. apply Rinv_0_lt_compat. repeat apply Rmult_lt_0_compat; lra. }
  lra.
Qed.

Lemma euler_growing (x : R) : 0 < x -> Un_growing (euler x).
Proof.
  intros Hx n. pose proof (euler_step_bounds x n Hx). lra.
Qed.

Lemma euler_bounded (x : R) (n : nat) :
  0 < x -> euler x n <= euler x 0 + x * (1 + x) * (1 - / INR (S n)).
Proof.
  intros Hx. induction n as [ | n IH].
  - simpl INR. rewrite Rinv_1. lra.
  - pose proof (euler_step_bounds x n Hx) as B.
    rewrite (S_INR (S n)). lra.
Qed.

Lemma euler_has_ub (x : R) : 0 < x -> has_ub (euler x).
Proof.
  intros Hx. exists (euler x 0 + x * (1 + x)).
  intros v [n ->].
  pose proof (euler_bounded x n Hx) as B.
  pose proof (Rinv_0_lt_compat _ (INR_S_pos n)) as I.
  assert (0 <= x * (1 + x) * / INR (S n)).
  { apply Rmult_le_pos; [apply Rmult_le_pos | ]; lra. }
  lra.
Qed.

(** Euler's sequence converges, to [lngamma x]. *)
Lemma euler_cv (x : R) : 0 < x -> Un_cv (euler x) (lngamma x).
Proof.
  intros Hx.
  destruct (growing_cv (euler x) (euler_growing x Hx) (euler_has_ub x Hx)) as [l Hl].
  unfold lngamma. now rewrite (lim_unique _ l Hl).
Qed.

Lemma logprod_shift (x : R) (n : nat) :
  logprod (x + 1) n - logprod x n = ln (x + 1) - ln (x + INR n + 1).
Proof.
  induction n as [ | n IH].
  - simpl. rewrite Rplus_0_r. ring.
  - change (logprod (x + 1) (S n))
      with (logprod (x + 1) n + (ln (INR (S n)) - ln (x + 1 + INR (S n)))).
    change (logprod x (S n))
      with (logprod x n + (ln (INR (S n)) - ln (x + INR (S n)))).
    replace (x + 1 + INR (S n)) with (x + INR (S n) + 1) by ring.
    replace (x + INR (S n)) with (x + INR n + 1) by (rewrite S_INR; ring).
    lra.
Qed.

Lemma euler_shift (x : R) (m : nat) :
  euler (x + 1) m
  = euler x m + ln x - (ln (x + INR (S m) + 1) - ln (INR (S m))).
Proof.
  unfold euler. pose proof (logprod_shift x (S m)). lra.
Qed.

(** [Gamma (x + 1) = x * Gamma x]. *)
Lemma lngamma_recurrence : gamma_recurrence lngamma.
Proof.
  intros x Hx.
  assert (D : Un_cv (fun m => ln (x + INR (S m) + 1) - ln (INR (S m))) 0).
  { apply cv_squeeze_inv with (x + 1). intros m.
    pose proof (INR_S_pos m) as Hm.
    pose proof (ln_diff_upper (x + INR (S m) + 1) (INR (S m)) ltac:(lra) Hm) as U.
    pose proof (ln_le_mono (INR (S m)) (x + INR (S m) + 1) Hm ltac:(lra)) as L.
    replace (x + INR (S m) + 1 - INR (S m)) with (x + 1) in U by ring. lra. }
  pose proof (CV_minus _ _ _ _ (CV_plus _ _ _ _ (euler_cv x Hx) (cv_const (ln x))) D) as C.
  rewrite Rminus_0_r in C.
  unfold lngamma at 1. apply lim_unique.
  apply cv_ext with (2 := C). intros m. now rewrite euler_shift.
Qed.

Lemma logprod_convex (x y l : R) (n : nat) :
  0 < x -> 0 < y -> 0 <= l <= 1 ->
  logprod (l * x + (1 - l) * y) n <= l * logprod x n + (1 - l) * logprod y n.
Proof.
  intros Hx Hy Hl. induction n as [ | n IH].
  - simpl. lra.
  - cbn [logprod]. pose proof (INR_S_pos n) as Hn.
    pose proof (ln_concave (x + INR (S n)) (y + INR (S n)) l
                  ltac:(lra) ltac:(lra) Hl) as C.
    replace (l * (x + INR (S n)) + (1 - l) * (y + INR (S n)))
      with (l * x + (1 - l) * y + INR (S n)) in C by ring.
    lra.
Qed.

Lemma euler_convex (x y l : R) (m : nat) :
  0 < x -> 0 < y -> 0 <= l <= 1 ->
  euler (l * x + (1 - l) * y) m <= l * euler x m + (1 - l) * euler y m.
Proof.
  intros Hx Hy Hl. unfold euler.
  pose proof (logprod_convex x y l (S m) Hx Hy Hl) as P.
  pose proof (ln_concave x y l Hx Hy Hl) as C.
  lra.
Qed.

(** The gamma function is logarithmically convex. *)
Lemma lngamma_convex : convex_pos lngamma.
Proof.
  intros x y l Hx Hy Hl.
  assert (Hm : 0 < l * x + (1 - l) * y).
  { destruct (Req_dec_T l 0) as [-> | N]; [lra | ].
    assert (0 < l * x) by (apply Rmult_lt_0_compat; lra).
    assert (0 <= (1 - l) * y) by (apply Rmult_le_pos; lra). lra. }
  apply (Rle_cv_lim (fun m => euler_convex x y l m Hx Hy Hl) (euler_cv _ Hm)).
  apply CV_plus; apply cv_scale; now apply euler_cv.
Qed.

Lemma logprod_one (n : nat) : logprod 1 n = - ln (1 + INR n).
Proof.
  induction n as [ | n IH].
  - simpl. rewrite Rplus_0_r, ln_1. ring.
  - cbn [logprod]. rewrite IH.
    replace (1 + INR n) with (INR (S n)) by (rewrite S_INR; ring). ring.
Qed.

(** [Gamma 1 = 1]: with the recurrence and convexity this determines the
    function on the positive reals (Bohr and Mollerup). *)
Lemma lngamma_one : lngamma 1 = 0.
Proof.
  unfold lngamma. apply lim_unique.
  assert (D : Un_cv (fun m => ln (1 + INR (S m)) - ln (INR (S m))) 0).
  { apply cv_squeeze_inv with 1. intros m.
    pose proof (INR_S_pos m) as Hm.
    pose proof (ln_diff_upper (1 + INR (S m)) (INR (S m)) ltac:(lra) Hm) as U.
    pose proof (ln_le_mono (INR (S m)) (1 + INR (S m)) Hm ltac:(lra)) as L.
    replace (1 + INR (S m) - INR (S m)) with 1 in U by ring. lra. }
  apply CV_opp in D. rewrite Ropp_0 in D.
  apply cv_ext with (2 := D). intros m. unfold opp_seq, euler.
  rewrite logprod_one, ln_1. ring.
Qed.

End EulerFacts.

(** ** Instances of the theorems at the constructed functions *)

Section Instances.

Import EulerGamma.

Lemma valid_3_3_10 : valid (3, 3, 10).
Proof. unfold valid. lra. Qed.


End Instances.

(** ** The bracket scan *)

Section Scan.

Variable f : R -> R.

Lemma scan_up_stop (fuel : nat) (b : R) :
  ~ (0 < f (b - 6) /\ 0 < f b) ->
  scan_up f fuel (window f b) = Some (window f b).
Proof.
  intros H. unfold window, bracket_width.
  destruct fuel; simpl;
    destruct (Rlt_dec 0 (f (b - 6))) as [L | L], (Rlt_dec 0 (f b)) as [U | U];
    unfold Rltb;
    destruct (Rlt_dec 0 (f (b - 6))), (Rlt_dec 0 (f b));
    simpl; try reflexivity; try contradiction; exfalso; apply H; now split.
Qed.

Lemma scan_up_step (fuel : nat) (b : R) :
  0 < f (b - 6) -> 0 < f b ->
  scan_up f (S fuel) (window f b) = scan_up f fuel (window f (b + 6)).
Proof.
  intros L U. unfold window, bracket_width. simpl.
  rewrite !Rltb_true by assumption. simpl.
  replace (b + 6 - 6) with b by ring. reflexivity.
Qed.

Lemma scan_down_stop (fuel : nat) (b : R) :
  ~ (f (b - 6) < 0 /\ f b < 0) ->
  scan_down f fuel (window f b) = Some (window f b).
Proof.
  intros H. unfold window, bracket_width.
  destruct fuel; simpl; unfold Rltb;
    destruct (Rlt_dec (f (b - 6)) 0), (Rlt_dec (f b) 0);
    simpl; try reflexivity; exfalso; apply H; now split.
Qed.

Lemma scan_down_step (fuel : nat) (b : R) :
  f (b - 6) < 0 -> f b < 0 ->
  scan_down f (S fuel) (window f b) = scan_down f fuel (window f (b - 6)).
Proof.
  intros L U. unfold window, bracket_width. simpl.
  rewrite !Rltb_true by assumption. simpl. reflexivity.
Qed.

(** The first loop stops within [n] iterations when [f] is not positive at
    the [n]-th upper end; it stops at a window where [f] is not positive at
    both ends, and where [f] is positive at the lower end if the window
    moved. *)
Lemma scan_up_run (n : nat) :
  forall (b : R) (fuel : nat),
    f (b + 6 * INR n) <= 0 -> (n <= fuel)%nat ->
    exists j, (j <= n)%nat /\
      scan_up f fuel (window f b) = Some (window f (b + 6 * INR j)) /\
      ~ (0 < f (b + 6 * INR j - 6) /\ 0 < f (b + 6 * INR j)) /\
      (j = 0%nat \/ 0 < f (b + 6 * INR j - 6)).
Proof.
  induction n as [ | n IH]; intros b fuel Hn Hfuel.
  - exists 0%nat. simpl INR in *. rewrite Rmult_0_r, Rplus_0_r in *.
    assert (St : ~ (0 < f (b - 6) /\ 0 < f b)) by (intros [_ U]; lra).
    repeat split; [lia | now apply scan_up_stop | exact St | now left].
  - destruct (Rlt_dec 0 (f (b - 6))) as [L | L];
      [destruct (Rlt_dec 0 (f b)) as [U | U] | ].
    + destruct fuel as [ | fuel]; [lia | ].
      destruct (IH (b + 6) fuel) as (j & Hj & E & St & P).
      { replace (b + 6 + 6 * INR n) with (b + 6 * INR (S n))
          by (rewrite S_INR; ring). exact Hn. }
      { lia. }
      exists (S j).
      replace (b + 6 * INR (S j)) with (b + 6 + 6 * INR j)
        by (rewrite S_INR; ring).
      repeat split; [lia | now rewrite scan_up_step | exact St | right].
      destruct P as [-> | P]; [ | exact P].
      simpl INR. now replace (b + 6 + 6 * 0 - 6) with b by ring.
    + exists 0%nat. simpl INR. rewrite Rmult_0_r, Rplus_0_r.
      assert (St : ~ (0 < f (b - 6) /\ 0 < f b)) by (intros [_ U']; contradiction).
      repeat split; [lia | now apply scan_up_stop | exact St | now left].
    + exists 0%nat. simpl INR. rewrite Rmult_0_r, Rplus_0_r.
      assert (St : ~ (0 < f (b - 6) /\ 0 < f b)) by (intros [L' _]; contradiction).
      repeat split; [lia | now apply scan_up_stop | exact St | now left].
Qed.

(** The second loop, the same way down. *)
Lemma scan_down_run (n : nat) :
  forall (b : R) (fuel : nat),
    0 <= f (b - 6 - 6 * INR n) -> (n <= fuel)%nat ->
    exists j, (j <= n)%nat /\
      scan_down f fuel (window f b) = Some (window f (b - 6 * INR j)) /\
      ~ (f (b - 6 * INR j - 6) < 0 /\ f (b - 6 * INR j) < 0) /\
      (j = 0%nat \/ f (b - 6 * INR j) < 0).
Proof.
  induction n as [ | n IH]; intros b fuel Hn Hfuel.
  - exists 0%nat. simpl INR in *. rewrite Rmult_0_r, Rminus_0_r in *.
    assert (St : ~ (f (b - 6) < 0 /\ f b < 0)) by (intros [L _]; lra).
    repeat split; [lia | now apply scan_down_stop | exact St | now left].
  - destruct (Rlt_dec (f (b - 6)) 0) as [L | L];
      [destruct (Rlt_dec (f b) 0) as [U | U] | ].
    + destruct fuel as [ | fuel]; [lia | ].
      destruct (IH (b - 6) fuel) as (j & Hj & E & St & P).
      { replace (b - 6 - 6 - 6 * INR n) with (b - 6 - 6 * INR (S n))
          by (rewrite S_INR; ring). exact Hn. }
      { lia. }
      exists (S j).
      replace (b - 6 * INR (S j)) with (b - 6 - 6 * INR j)
        by (rewrite S_INR; ring).
      repeat split; [lia | now rewrite scan_down_step | exact St | right].
      destruct P as [-> | P]; [ | exact P].
      simpl INR. now replace (b - 6 - 6 * 0) with (b - 6) by ring.
    + exists 0%nat. simpl INR. rewrite Rmult_0_r, Rminus_0_r.
      assert (St : ~ (f (b - 6) < 0 /\ f b < 0)) by (intros [_ U']; contradiction).
      repeat split; [lia | now apply scan_down_stop | exact St | now left].
    + exists 0%nat. simpl INR. rewrite Rmult_0_r, Rminus_0_r.
      assert (St : ~ (f (b - 6) < 0 /\ f b < 0)) by (intros [L' _]; contradiction).
      repeat split; [lia | now apply scan_down_stop | exact St | now left].
Qed.

Lemma scan_start (fuel : nat) :
  scan f fuel
  = match scan_up f fuel (window f 3) with
    | Some st => scan_down f fuel st
    | None => None
    end.
Proof.
  unfold scan, window, bracket_width.
  replace (Ropp 6 / 2) with (3 - 6) by field.
  replace (6 / 2) with 3 by field. reflexivity.
Qed.

Hypothesis f_decreasing : forall x y, x <= y -> f y <= f x.

(** For a decreasing [f] that is not positive somewhere up the scan and not
    negative somewhere down the scan, the two loops end, on a window whose
    upper end is a scan point [3 + 6 k], with [f] not negative at its lower
    end and not positive at its upper end. *)
Lemma scan_terminates (n m : nat) :
  f (3 + 6 * INR n) <= 0 -> 0 <= f (- 3 - 6 * INR m) ->
  forall fuel, (n + m <= fuel)%nat ->
    exists k : Z,
      scan f fuel = Some (window f (3 + 6 * IZR k)) /\
      0 <= f (3 + 6 * IZR k - 6) /\ f (3 + 6 * IZR k) <= 0.
Proof.
  intros Hn Hm fuel Hfuel. rewrite scan_start.
  destruct (scan_up_run n 3 fuel Hn ltac:(lia)) as (j & Hj & E & St & P).
  rewrite E.
  set (b := 3 + 6 * INR j) in *.
  assert (Hb : f b <= 0).
  { destruct (Rle_dec (f b) 0) as [Le | Gt]; [exact Le | ].
    exfalso. apply St. pose proof (f_decreasing (b - 6) b ltac:(lra)). lra. }
  destruct (scan_down_run (j + m) b fuel) as (i & Hi & E' & St' & P').
  { replace (b - 6 - 6 * INR (j + m)) with (- 3 - 6 * INR m);
      [exact Hm | unfold b; rewrite plus_INR; ring]. }
  { lia. }
  exists (Z.of_nat j - Z.of_nat i)%Z.
  replace (3 + 6 * IZR (Z.of_nat j - Z.of_nat i)) with (b - 6 * INR i)
    by (unfold b; rewrite minus_IZR, <- !INR_IZR_INZ; ring).
  split; [exact E' | ]. split.
  - destruct (Rle_dec 0 (f (b - 6 * INR i - 6))) as [Le | Gt]; [exact Le | ].
    exfalso. apply St'.
    pose proof (f_decreasing (b - 6 * INR i - 6) (b - 6 * INR i) ltac:(lra)). lra.
  - destruct P' as [-> | P']; [ | lra].
    simpl INR. now rewrite Rmult_0_r, Rminus_0_r.
Qed.

End Scan.

(** ** The function scanned by [modelToPercentileDecay] *)

Lemma decay_f_log_recall (gammaln : R -> R) (alpha beta t0 p l : R) :
  decay_f gammaln (alpha, beta, t0) p l
  = log_recall gammaln alpha beta (exp l) - ln p.
Proof.
  unfold decay_f, betaln, log_recall.
  replace (alpha + exp l + beta) with (alpha + beta + exp l) by ring. ring.
Qed.

(** [exp (- 3 - 6 m)] gets as small as needed. *)
Lemma small_exp (K eps : R) :
  0 < eps -> exists m, K * exp (- 3 - 6 * INR m) <= eps.
Proof.
  intros Heps.
  destruct (Rle_dec K 0) as [Neg | Pos].
  - exists 0%nat. pose proof (exp_pos (- 3 - 6 * INR 0)). nra.
  - assert (HK : 0 < K) by lra.
    destruct (INR_archimed eps K Heps) as [m Hm].
    exists m.
    set (x := 3 + 6 * INR m).
    assert (Hm0 : 0 <= INR m) by apply pos_INR.
    assert (Hx : 0 < x) by (unfold x; lra).
    assert (Ex : x < exp x) by (pose proof (exp_ineq1_le x); lra).
    replace (- 3 - 6 * INR m) with (- x) by (unfold x; ring).
    rewrite exp_Ropp.
    assert (I : / exp x < / x)
      by (apply Rinv_lt_contravar; [apply Rmult_lt_0_compat; lra | exact Ex]).
    assert (Kx : K * / x <= eps).
    { apply Rmult_le_reg_r with x; [exact Hx | ].
      rewrite Rmult_assoc, Rinv_l by lra. unfold x. nra. }
    assert (K * / exp x <= K * / x) by (apply Rmult_le_compat_l; lra).
    lra.
Qed.

Section Decay.

Variable gammaln : R -> R.
Hypothesis gammaln_convex : convex_pos gammaln.
Hypothesis gammaln_recurrence : gamma_recurrence gammaln.

Lemma decay_f_decreasing (alpha beta t0 p x y : R) :
  0 < alpha -> 0 < beta -> x <= y ->
  decay_f gammaln (alpha, beta, t0) p y <= decay_f gammaln (alpha, beta, t0) p x.
Proof.
  intros Ha Hb Hxy. rewrite !decay_f_log_recall.
  assert (exp x <= exp y).
  { destruct Hxy as [L | ->]; [left; now apply exp_increasing | lra]. }
  pose proof (exp_pos x).
  pose proof (log_recall_decreasing gammaln gammaln_convex alpha beta
                (exp x) (exp y) Ha Hb ltac:(lra)).
  lra.
Qed.

(** Over a step [b] the logarithm of gamma grows by at least
    [b * ln (x - 1)]. *)
Lemma gammaln_growth (x b : R) :
  1 < x -> 0 <= b -> b * ln (x - 1) <= gammaln (x + b) - gammaln x.
Proof.
  intros Hx Hb.
  destruct (Req_dec_T b 0) as [-> | Nb].
  { rewrite Rplus_0_r. lra. }
  pose proof (chord gammaln gammaln_convex (x - 1) x (x + b)
                ltac:(lra) ltac:(lra) ltac:(lra)) as C.
  pose proof (gammaln_recurrence (x - 1) ltac:(lra)) as E.
  replace (x - 1 + 1) with x in E by ring.
  replace (x + b - (x - 1)) with (b + 1) in C by ring.
  replace (x + b - x) with b in C by ring.
  replace (x - (x - 1)) with 1 in C by ring.
  rewrite E in *. lra.
Qed.

(** Near zero the recall is at least linear in the elapsed time. *)
Lemma log_recall_lower (alpha beta d : R) :
  0 < alpha -> 0 < beta -> 0 <= d <= 1 ->
  - ((ln (alpha + beta)
      - 2 / alpha * (gammaln alpha - gammaln (alpha / 2))) * d)
  <= log_recall gammaln alpha beta d.
Proof.
  intros Ha Hb Hd. unfold log_recall.
  set (m := 2 / alpha * (gammaln alpha - gammaln (alpha / 2))).
  assert (Em : alpha / 2 * m = gammaln alpha - gammaln (alpha / 2))
    by (unfold m; field; lra).
  assert (L1 : d * m <= gammaln (alpha + d) - gammaln alpha).
  { pose proof (chord gammaln gammaln_convex (alpha / 2) alpha (alpha + d)
                  ltac:(lra) ltac:(lra) ltac:(lra)) as C.
    replace (alpha + d - alpha / 2) with (d + alpha / 2) in C by field.
    replace (alpha + d - alpha) with d in C by ring.
    replace (alpha - alpha / 2) with (alpha / 2) in C by field.
    apply Rmult_le_reg_l with (alpha / 2); [lra | ].
    replace (alpha / 2 * (d * m)) with (d * (alpha / 2 * m)) by ring.
    rewrite Em. lra. }
  assert (L2 : gammaln (alpha + beta + d) - gammaln (alpha + beta)
               <= d * ln (alpha + beta)).
  { pose proof (chord gammaln gammaln_convex (alpha + beta) (alpha + beta + d)
                  (alpha + beta + 1) ltac:(lra) ltac:(lra) ltac:(lra)) as C.
    pose proof (gammaln_recurrence (alpha + beta) ltac:(lra)) as E.
    replace (alpha + beta + 1 - (alpha + beta)) with 1 in C by ring.
    replace (alpha + beta + 1 - (alpha + beta + d)) with (1 - d) in C by ring.
    replace (alpha + beta + d - (alpha + beta)) with d in C by ring.
    rewrite E in C. lra. }
  lra.
Qed.

(** Far enough up the scan, [f] is not positive. *)
Lemma decay_f_negative_up (alpha beta t0 p : R) :
  0 < alpha -> 0 < beta ->
  exists n, decay_f gammaln (alpha, beta, t0) p (3 + 6 * INR n) <= 0.
Proof.
  intros Ha Hb.
  set (C := gammaln (alpha + beta) - gammaln alpha).
  set (M := (C - ln p) / beta).
  assert (EM : beta * M = C - ln p) by (unfold M; field; lra).
  destruct (INR_archimed 1 (ln (exp M + 1)) ltac:(lra)) as [n Hn].
  exists n. rewrite decay_f_log_recall.
  set (l := 3 + 6 * INR n).
  pose proof (pos_INR n) as Hn0.
  pose proof (exp_pos M) as HeM.
  assert (Hd : exp M + 1 < exp l).
  { rewrite <- (exp_ln (exp M + 1)) by lra.
    apply exp_increasing. unfold l. lra. }
  pose proof (gammaln_growth (alpha + exp l) beta ltac:(lra) ltac:(lra)) as G.
  assert (HM : M <= ln (alpha + exp l - 1)).
  { rewrite <- (ln_exp M) at 1. apply ln_le_mono; lra. }
  assert (beta * M <= beta * ln (alpha + exp l - 1))
    by (apply Rmult_le_compat_l; lra).
  unfold log_recall. fold C.
  replace (alpha + beta + exp l) with (alpha + exp l + beta) by ring.
  lra.
Qed.

(** Far enough down the scan, [f] is not negative. *)
Lemma decay_f_positive_down (alpha beta t0 p : R) :
  0 < alpha -> 0 < beta -> 0 < p < 1 ->
  exists m, 0 <= decay_f gammaln (alpha, beta, t0) p (- 3 - 6 * INR m).
Proof.
  intros Ha Hb Hp.
  assert (Hl : ln p < 0) by (rewrite <- ln_1; apply ln_increasing; lra).
  destruct (small_exp (ln (alpha + beta)
                       - 2 / alpha * (gammaln alpha - gammaln (alpha / 2)))
              (- ln p) ltac:(lra)) as [m Hm].
  exists m. rewrite decay_f_log_recall.
  set (l := - 3 - 6 * INR m) in *.
  pose proof (pos_INR m) as Hm0.
  pose proof (exp_pos l) as Hd.
  assert (Hd1 : exp l <= 1).
  { rewrite <- exp_0. left. apply exp_increasing. unfold l. lra. }
  pose proof (log_recall_lower alpha beta (exp l) Ha Hb ltac:(lra)).
  lra.
Qed.


End Decay.


Section ScanExample.

Import EulerGamma.


End ScanExample.

(** * Binary64 *)

(** ** Facts of binary64 arithmetic *)

Section FloatFacts.

Local Open Scope float_scope.

Lemma Prim2SF_zero : Prim2SF 0 = S754_zero false.
Proof. reflexivity. Qed.

(** A float above zero is a positive finite number or [+infinity]. *)
Lemma ltb_0_inv (x : float) :
  (0 <? x) = true ->
  Prim2SF x = S754_infinity false \/
  exists m e, Prim2SF x = S754_finite false m e.
Proof.
  rewrite ltb_spec, Prim2SF_zero.
  destruct (Prim2SF x) as [s | s | | s m e]; cbn; try discriminate;
    destruct s; try discriminate; eauto.
Qed.

Lemma ltb_0_intro (x : float) :
  Prim2SF x = S754_infinity false \/
  (exists m e, Prim2SF x = S754_finite false m e) ->
  (0 <? x) = true.
Proof.
  rewrite ltb_spec, Prim2SF_zero. intros [-> | (m & e & ->)]; reflexivity.
Qed.

Lemma is_finite_inv (x : float) :
  is_finite x = true ->
  (exists s, Prim2SF x = S754_zero s) \/
  exists s m e, Prim2SF x = S754_finite s m e.
Proof.
  unfold is_finite, is_nan, is_infinity.
  rewrite !eqb_spec, abs_spec.
  change (Prim2SF infinity) with (S754_infinity false).
  destruct (Prim2SF x) as [[] | [] | | s m e]; cbn; try discriminate; intros _;
    eauto.
Qed.

Lemma is_finite_intro (x : float) :
  (exists s, Prim2SF x = S754_zero s) \/
  (exists s m e, Prim2SF x = S754_finite s m e) ->
  is_finite x = true.
Proof.
  unfold is_finite, is_nan, is_infinity.
  rewrite !eqb_spec, abs_spec.
  change (Prim2SF infinity) with (S754_infinity false).
  intros [(s & ->) | (s & m & e & ->)]; cbn.
  - reflexivity.
  - unfold SFeqb, SFcompare. destruct s.
    + rewrite Z.compare_refl, Pos.compare_cont_refl. reflexivity.
    + rewrite Z.compare_refl, Pos.compare_cont_refl. reflexivity.
Qed.

End FloatFacts.

Section Rounding.

Local Open Scope Z_scope.

Lemma digits2_pos_bound (m : positive) :
  2 ^ (Zpos (digits2_pos m) - 1) <= Zpos m.
Proof.
  induction m as [m IH | m IH | ]; cbn [digits2_pos].
  - rewrite Pos2Z.inj_succ.
    replace (Z.succ (Zpos (digits2_pos m)) - 1) with (Z.succ (Zpos (digits2_pos m) - 1)) by lia.
    rewrite Z.pow_succ_r by lia. lia.
  - rewrite Pos2Z.inj_succ.
    replace (Z.succ (Zpos (digits2_pos m)) - 1) with (Z.succ (Zpos (digits2_pos m) - 1)) by lia.
    rewrite Z.pow_succ_r by lia. lia.
  - reflexivity.
Qed.

Lemma shr_1_m (mrs : shr_record) :
  0 <= shr_m mrs -> shr_m (shr_1 mrs) = shr_m mrs / 2.
Proof.
  destruct mrs as [m r s]. cbn [shr_m shr_1]. intros Hm.
  destruct m as [ | [p | p | ] | p]; cbn [shr_m]; try lia; try reflexivity.
  - apply Z.div_unique with 1; lia.
  - apply Z.div_unique with 0; lia.
Qed.

Lemma iter_shr_m (p : positive) : forall mrs,
  0 <= shr_m mrs -> shr_m (iter_pos shr_1 p mrs) = shr_m mrs / 2 ^ Zpos p.
Proof.
  assert (step : forall mrs, 0 <= shr_m mrs -> 0 <= shr_m (shr_1 mrs)).
  { intros mrs H. rewrite shr_1_m by exact H. apply Z.div_pos; lia. }
  induction p as [p IH | p IH | ]; intros mrs Hm; cbn [iter_pos].
  - rewrite IH.
    + rewrite IH by (apply step, Hm). rewrite shr_1_m by exact Hm.
      rewrite !Z.div_div by lia.
      f_equal.
      replace (Zpos p~1) with (1 + Zpos p + Zpos p) by lia.
      rewrite !Z.pow_add_r by lia. lia.
    + rewrite IH by (apply step, Hm). apply Z.div_pos; [apply step, Hm | lia].
  - rewrite IH.
    + rewrite IH by exact Hm. rewrite !Z.div_div by lia.
      f_equal.
      replace (Zpos p~0) with (Zpos p + Zpos p) by lia.
      rewrite !Z.pow_add_r by lia. lia.
    + rewrite IH by exact Hm. apply Z.div_pos; [exact Hm | lia].
  - rewrite shr_1_m by exact Hm. reflexivity.
Qed.

Lemma shr_record_of_loc_m (m : Z) (l : location) :
  shr_m (shr_record_of_loc m l) = m.
Proof. destruct l as [ | []]; reflexivity. Qed.

Lemma shr_fexp_nonneg (m e : Z) (l : location) :
  0 <= m -> 0 <= shr_m (fst (shr_fexp prec emax m e l)).
Proof.
  intros Hm. unfold shr_fexp, shr.
  destruct (fexp prec emax (Zdigits2 m + e) - e) as [ | p | p]; cbn [fst];
    rewrite ?iter_shr_m; rewrite ?shr_record_of_loc_m; try exact Hm.
  apply Z.div_pos; [exact Hm | lia].
Qed.

Lemma shr_fexp_pos (m e : Z) (l : location) :
  0 < m -> emin <= e ->
  0 < shr_m (fst (shr_fexp prec emax m e l)) /\
  emin <= snd (shr_fexp prec emax m e l).
Proof.
  intros Hm He. unfold shr_fexp, shr.
  destruct (fexp prec emax (Zdigits2 m + e) - e) as [ | p | p] eqn:En;
    cbn [fst snd]; rewrite ?shr_record_of_loc_m; try (split; [exact Hm | exact He]).
  rewrite iter_shr_m by (rewrite shr_record_of_loc_m; lia).
  rewrite shr_record_of_loc_m. split; [ | lia].
  destruct m as [ | mp | mp]; try lia.
  cbn [Zdigits2] in En.
  pose proof (digits2_pos_bound mp) as Hd.
  apply Z.div_str_pos. split; [lia | ].
  apply Z.le_trans with (2 ^ (Zpos (digits2_pos mp) - 1)); [ | exact Hd].
  apply Z.pow_le_mono_r; [lia | ].
  unfold fexp, SpecFloat.emin, prec, emax in *. lia.
Qed.

Lemma round_nearest_even_ge (m : Z) (l : location) :
  m <= round_nearest_even m l.
Proof.
  destruct l as [ | []]; cbn; try lia. destruct (Z.even m); lia.
Qed.

(** Rounding a non-negative mantissa gives a zero, a finite number or an
    infinity of the sign asked for, never NaN. *)
Lemma binary_round_aux_nonneg (sx : bool) (m e : Z) (l : location) :
  0 <= m ->
  binary_round_aux prec emax sx m e l = S754_zero sx \/
  binary_round_aux prec emax sx m e l = S754_infinity sx \/
  exists m' e', binary_round_aux prec emax sx m e l = S754_finite sx m' e'.
Proof.
  intros Hm. unfold binary_round_aux.
  pose proof (shr_fexp_nonneg m e l Hm) as H1.
  destruct (shr_fexp prec emax m e l) as [mrs' e1]. cbn [fst] in H1.
  pose proof (round_nearest_even_ge (shr_m mrs') (loc_of_shr_record mrs')) as H2.
  pose proof (shr_fexp_nonneg (round_nearest_even (shr_m mrs') (loc_of_shr_record mrs'))
                e1 loc_Exact ltac:(lia)) as H3.
  destruct (shr_fexp prec emax _ e1 loc_Exact) as [mrs2 e2]. cbn [fst] in H3.
  destruct (shr_m mrs2) as [ | q | q]; try lia; eauto.
  destruct (e2 <=? emax - prec); eauto.
Qed.

(** Above the smallest exponent a positive mantissa never rounds to zero. *)
Lemma binary_round_aux_pos (sx : bool) (m e : Z) (l : location) :
  0 < m -> emin <= e ->
  binary_round_aux prec emax sx m e l = S754_infinity sx \/
  exists m' e', binary_round_aux prec emax sx m e l = S754_finite sx m' e'.
Proof.
  intros Hm He. unfold binary_round_aux.
  pose proof (shr_fexp_pos m e l Hm He) as [H1 H1'].
  destruct (shr_fexp prec emax m e l) as [mrs' e1]. cbn [fst snd] in H1, H1'.
  pose proof (round_nearest_even_ge (shr_m mrs') (loc_of_shr_record mrs')) as H2.
  pose proof (shr_fexp_pos (round_nearest_even (shr_m mrs') (loc_of_shr_record mrs'))
                e1 loc_Exact ltac:(lia) H1') as [H3 _].
  destruct (shr_fexp prec emax _ e1 loc_Exact) as [mrs2 e2]. cbn [fst] in H3.
  destruct (shr_m mrs2) as [ | q | q]; try lia.
  destruct (e2 <=? emax - prec); eauto.
Qed.

End Rounding.

Section Operations.

Local Open Scope float_scope.

Lemma finite_exponent (x : float) (s : bool) (m : positive) (e : Z) :
  Prim2SF x = S754_finite s m e -> (emin <= e)%Z.
Proof.
  intros H. pose proof (Prim2SF_valid x) as V. rewrite H in V.
  cbn [SpecFloat.valid_binary] in V. unfold bounded, canonical_mantissa in V.
  apply andb_prop in V as [V _]. apply Z.eqb_eq in V.
  unfold fexp in V. lia.
Qed.

Lemma binary_round_pos (sx : bool) (m : positive) (e : Z) :
  (emin <= e)%Z ->
  binary_round prec emax sx m e = S754_infinity sx \/
  exists m' e', binary_round prec emax sx m e = S754_finite sx m' e'.
Proof.
  intros He. unfold binary_round.
  destruct (shl_align m e (fexp prec emax (Zpos (digits2_pos m) + e)))
    as [mz ez] eqn:E.
  apply binary_round_aux_pos; [lia | ].
  unfold shl_align in E.
  destruct (fexp prec emax (Zpos (digits2_pos m) + e) - e)%Z eqn:D;
    inversion E; subst; try exact He.
  unfold fexp. lia.
Qed.

(** The quotient of two positive finite floats is zero, positive or
    [+infinity]. *)
Lemma div_pos_nonneg (x y : float) :
  (0 <? x) = true -> is_finite x = true ->
  (0 <? y) = true -> is_finite y = true ->
  nonneg (Prim2SF (x / y)).
Proof.
  intros Hx Fx Hy Fy. rewrite div_spec.
  destruct (ltb_0_inv x Hx) as [Ex | (mx & ex & Ex)];
    destruct (is_finite_inv x Fx) as [(s & Ex') | (s & m & e & Ex')];
    try congruence.
  destruct (ltb_0_inv y Hy) as [Ey | (my & ey & Ey)];
    destruct (is_finite_inv y Fy) as [(s' & Ey') | (s' & m' & e' & Ey')];
    try congruence.
  rewrite Ex, Ey. unfold SF64div, SFdiv, SFdiv_core_binary.
  match goal with
  | |- context [Z.div_eucl ?a ?b] =>
      pose proof (Z.div_pos a b) as Hq; unfold Z.div in Hq;
      destruct (Z.div_eucl a b) as [q r] eqn:E
  end.
  assert (0 <= q)%Z as Hq'.
  { apply Hq; [ | lia].
    match goal with
    | |- (0 <= match ?s with _ => _ end)%Z => destruct s
    end; try lia. apply Z.shiftl_nonneg. lia. }
  cbn [xorb].
  destruct (binary_round_aux_nonneg false q
              (Z.min
                 (fexp prec emax
                    (Zdigits2 (Zpos mx) + ex - (Zdigits2 (Zpos my) + ey)))
                 (ex - ey))
              (new_location (Zpos my) r) Hq') as [H | [H | H]].
  - left. eauto.
  - right. left. exact H.
  - right. right. exact H.
Qed.

(** Adding a float that is not below zero to a positive one gives a positive
    one. *)
Lemma add_pos_nonneg (a d : float) :
  (0 <? a) = true -> nonneg (Prim2SF d) -> (0 <? a + d) = true.
Proof.
  intros Ha Hd. apply ltb_0_intro. rewrite add_spec. unfold SF64add.
  destruct (ltb_0_inv a Ha) as [Ea | (ma & ea & Ea)];
    destruct Hd as [(s & Ed) | [Ed | (md & ed & Ed)]]; rewrite Ea, Ed; cbn [SFadd];
    eauto.
  pose proof (finite_exponent a _ _ _ Ea) as Va.
  pose proof (finite_exponent d _ _ _ Ed) as Vd.
  cbn [cond_Zopp Z.add binary_normalize].
  apply binary_round_pos. lia.
Qed.

(** A finite float minus itself is [+0]. *)
Lemma sub_diag (x : float) : is_finite x = true -> x - x = 0.
Proof.
  intros Fx. apply Prim2SF_inj. rewrite sub_spec, Prim2SF_zero.
  unfold SF64sub.
  destruct (is_finite_inv x Fx) as [(s & ->) | (s & m & e & ->)]; cbn [SFsub].
  - destruct s; reflexivity.
  - rewrite Z.sub_diag. reflexivity.
Qed.

(** A float that is not finite minus itself is NaN. *)
Lemma sub_diag_nan (x : float) : is_finite x = false -> x - x = nan.
Proof.
  intros Fx. apply Prim2SF_inj. rewrite sub_spec.
  change (Prim2SF nan) with S754_nan. unfold SF64sub.
  destruct (Prim2SF x) as [s | s | | s m e] eqn:E; cbn [SFsub].
  - rewrite is_finite_intro in Fx by eauto. discriminate.
  - destruct s; reflexivity.
  - reflexivity.
  - rewrite is_finite_intro in Fx by eauto. discriminate.
Qed.

(** [+0] is neutral for every float above zero. *)
Lemma add_0_l (x : float) : (0 <? x) = true -> 0 + x = x.
Proof.
  intros Hx. apply Prim2SF_inj. rewrite add_spec, Prim2SF_zero.
  unfold SF64add.
  destruct (ltb_0_inv x Hx) as [-> | (m & e & ->)]; reflexivity.
Qed.

Lemma add_nan_l (x : float) : nan + x = nan.
Proof.
  apply Prim2SF_inj. rewrite add_spec. reflexivity.
Qed.

Lemma leb_nan_l (x : float) : (nan <=? x) = false.
Proof. rewrite leb_spec. reflexivity. Qed.

Lemma ltb_0_asym_l (x : float) : (0 <? x) = true -> (x <? 0) = false.
Proof.
  rewrite !ltb_spec, Prim2SF_zero.
  destruct (Prim2SF x) as [s | [] | | [] m e]; cbn; congruence.
Qed.

Lemma ltb_0_asym_r (x : float) : (x <? 0) = true -> (0 <? x) = false.
Proof.
  rewrite !ltb_spec, Prim2SF_zero.
  destruct (Prim2SF x) as [s | [] | | [] m e]; cbn; congruence.
Qed.

End Operations.

Section ExactOperations.

Local Open Scope float_scope.

Lemma Prim2SF_one : Prim2SF 1 = S754_finite false 4503599627370496 (-52).
Proof. reflexivity. Qed.

Lemma finite_bounded (x : float) (s : bool) (m : positive) (e : Z) :
  Prim2SF x = S754_finite s m e ->
  fexp prec emax (Zpos (digits2_pos m) + e) = e /\ (e <=? emax - prec)%Z = true.
Proof.
  intros H. pose proof (Prim2SF_valid x) as V. rewrite H in V.
  cbn [SpecFloat.valid_binary] in V. unfold bounded, canonical_mantissa in V.
  apply andb_prop in V as [V1 V2]. apply Z.eqb_eq in V1. now split.
Qed.

(** A finite float that is not zero, divided by itself, is [1]. *)
Lemma div_diag (x : float) :
  is_finite x = true -> (x =? 0) = false -> x / x = 1.
Proof.
  intros Fx Nx. apply Prim2SF_inj. rewrite div_spec, Prim2SF_one.
  destruct (is_finite_inv x Fx) as [(s & E) | (s & m & e & E)].
  - rewrite eqb_spec, E, Prim2SF_zero in Nx. destruct s; discriminate.
  - rewrite E. unfold SF64div, SFdiv, SFdiv_core_binary. cbv zeta.
    replace (Zdigits2 (Zpos m) + e - (Zdigits2 (Zpos m) + e))%Z with 0%Z by lia.
    rewrite Z.sub_diag.
    change (Z.min (fexp prec emax 0) 0) with (-53)%Z.
    change (0 - -53)%Z with 53%Z. cbv iota.
    assert (Z.div_eucl (Z.shiftl (Zpos m) 53) (Zpos m) = (2 ^ 53, 0)%Z) as ->.
    { rewrite Z.shiftl_mul_pow2 by lia.
      pose proof (Z_div_mod (Zpos m * 2 ^ 53) (Zpos m) eq_refl) as D.
      destruct (Z.div_eucl (Zpos m * 2 ^ 53) (Zpos m)) as [q r].
      destruct D as [D1 D2].
      assert (q = 2 ^ 53)%Z by nia. subst q. f_equal. lia. }
    assert (new_location (Zpos m) 0 = loc_Exact) as ->.
    { unfold new_location, new_location_even, new_location_odd.
      destruct (Z.even (Zpos m)); reflexivity. }
    destruct s; reflexivity.
Qed.

(** [1] is neutral for the product. *)
Lemma mul_1_r (x : float) : x * 1 = x.
Proof.
  apply Prim2SF_inj. rewrite mul_spec, Prim2SF_one. unfold SF64mul.
  destruct (Prim2SF x) as [s | s | | s m e] eqn:E; cbn [SFmul];
    rewrite ?xorb_false_r; try reflexivity.
  destruct (finite_bounded x s m e E) as [C B].
  rewrite Pos.mul_comm. cbn [Pos.mul].
  unfold binary_round_aux, shr_fexp.
  match goal with
  | |- context [(fexp prec emax (Zdigits2 (Zpos ?M) + (e + -52)) - (e + -52))%Z] =>
      replace (fexp prec emax (Zdigits2 (Zpos M) + (e + -52)) - (e + -52))%Z
        with 52%Z
  end.
  2:{ cbn [Zdigits2 digits2_pos].
      match goal with
      | |- _ = (fexp prec emax ?A - _)%Z =>
          replace A with (Zpos (digits2_pos m) + e)%Z by lia
      end.
      rewrite C. lia. }
  cbn [shr shr_record_of_loc iter_pos shr_1 shr_m loc_of_shr_record
       round_nearest_even orb].
  replace (e + -52 + 52)%Z with e by lia.
  cbn [Zdigits2]. rewrite C, Z.sub_diag. cbn [shr shr_record_of_loc shr_m].
  rewrite B. reflexivity.
Qed.

End ExactOperations.

Section Symmetry.

Local Open Scope float_scope.

Lemma binary_round_aux_opp (sx : bool) (m e : Z) (l : location) :
  binary_round_aux prec emax (negb sx) m e l
  = SFopp (binary_round_aux prec emax sx m e l).
Proof.
  unfold binary_round_aux.
  destruct (shr_fexp prec emax m e l) as [mrs' e'].
  destruct (shr_fexp prec emax _ e' loc_Exact) as [mrs2 e2].
  destruct (shr_m mrs2); try reflexivity.
  destruct (e2 <=? emax - prec)%Z; reflexivity.
Qed.

Lemma binary_round_opp (sx : bool) (m : positive) (e : Z) :
  binary_round prec emax (negb sx) m e = SFopp (binary_round prec emax sx m e).
Proof.
  unfold binary_round.
  destruct (shl_align m e _) as [mz ez]. apply binary_round_aux_opp.
Qed.

Lemma binary_normalize_opp (z e : Z) :
  z <> 0%Z ->
  binary_normalize prec emax (- z) e false
  = SFopp (binary_normalize prec emax z e false).
Proof.
  intros Hz. destruct z as [ | p | p]; [now elim Hz | | ]; cbn [Z.opp binary_normalize].
  - apply (binary_round_opp false).
  - rewrite (binary_round_opp true). now destruct (binary_round prec emax true p e).
Qed.

(** Subtraction is antisymmetric, but for the [+0] of equal operands. *)
Lemma SFsub_antisym (x y : spec_float) :
  SFsub prec emax y x = SFopp (SFsub prec emax x y) \/
  (SFsub prec emax x y = S754_zero false /\ SFsub prec emax y x = S754_zero false).
Proof.
  destruct x as [sx | sx | | sx mx ex], y as [sy | sy | | sy my ey]; cbn [SFsub SFopp];
    try (destruct sx, sy; cbn; auto; fail);
    try (destruct sx; cbn; auto; fail);
    try (destruct sy; cbn; auto; fail);
    auto.
  rewrite (Z.min_comm ey ex).
  set (a := cond_Zopp sx (Zpos (fst (shl_align mx ex (Z.min ex ey))))).
  set (b := cond_Zopp sy (Zpos (fst (shl_align my ey (Z.min ex ey))))).
  destruct (Z.eq_dec (a - b) 0) as [E | N].
  - right. replace (b - a)%Z with 0%Z by lia. rewrite E. now split.
  - left. replace (b - a)%Z with (- (a - b))%Z by lia.
    now apply binary_normalize_opp.
Qed.

Lemma SFadd_opp (d : spec_float) :
  (exists s, d = S754_zero s) \/ (exists s m e, d = S754_finite s m e) ->
  SFadd prec emax d (SFopp d) = S754_zero false.
Proof.
  intros [(s & ->) | (s & m & e & ->)]; cbn [SFadd SFopp].
  - now destruct s.
  - destruct s; cbn [cond_Zopp negb];
      rewrite ?Z.add_opp_diag_l, ?Z.add_opp_diag_r; reflexivity.
Qed.

(** Two differences taken in opposite orders cancel exactly, unless they
    overflow. *)
Lemma sub_add_cancel (x y : float) :
  is_finite (x - y) = true -> (x - y) + (y - x) = 0.
Proof.
  intros F. apply Prim2SF_inj. rewrite add_spec, Prim2SF_zero.
  pose proof (is_finite_inv _ F) as D. rewrite sub_spec in D.
  rewrite !sub_spec. unfold SF64add, SF64sub in *.
  destruct (SFsub_antisym (Prim2SF x) (Prim2SF y)) as [-> | [-> ->]].
  - now apply SFadd_opp.
  - reflexivity.
Qed.

Lemma div_0_l (t : float) : (0 <? t) = true -> 0 / t = 0.
Proof.
  intros Ht. apply Prim2SF_inj. rewrite div_spec, Prim2SF_zero.
  destruct (ltb_0_inv t Ht) as [-> | (m & e & ->)]; reflexivity.
Qed.

Lemma add_0_r (x : float) : (0 <? x) = true -> x + 0 = x.
Proof.
  intros Hx. apply Prim2SF_inj. rewrite add_spec, Prim2SF_zero.
  destruct (ltb_0_inv x Hx) as [-> | (m & e & ->)]; reflexivity.
Qed.

Lemma eqb_0_pos (t : float) : (0 <? t) = true -> (t =? 0) = false.
Proof.
  intros Ht. rewrite eqb_spec, Prim2SF_zero.
  destruct (ltb_0_inv t Ht) as [-> | (m & e & ->)]; reflexivity.
Qed.

Lemma ltb_0_nonneg (x : float) : (0 <? x) = true -> nonneg (Prim2SF x).
Proof.
  intros Hx. destruct (ltb_0_inv x Hx) as [E | E]; unfold nonneg; auto.
Qed.

End Symmetry.

(** ** The claims in binary64 *)

Section Binary64Claims.

Local Open Scope float_scope.
#[local] Set Warnings "-inexact-float".

Variable gammaln : float -> float.
Variable betaln : float -> float -> float.
Variable exp : float -> float.
Variable log : float -> float.
Variable logsumexp : list float -> list float -> float.
Variable least_squares :
  (float * float -> list float) -> float * float -> float * float ->
  float * float -> option (float * float).
Variable root_scalar : (float -> float) -> float -> float -> option float.

Lemma pydiv_nonzero (x y : float) :
  (y =? 0) = false -> Binary64.pydiv x y = Ok (x / y).
Proof. intros H. unfold Binary64.pydiv. now rewrite H. Qed.

Lemma pydiv_by_zero (x y : float) :
  (y =? 0) = true -> Binary64.pydiv x y = Err ZeroDivisionError.
Proof. intros H. unfold Binary64.pydiv. now rewrite H. Qed.

(** What the success branch computes. *)
Lemma updateRecall_success_cases (alpha beta t tnow : float) :
  Binary64.updateRecall gammaln betaln exp log logsumexp least_squares
    (alpha, beta, t) true tnow
  = if (t =? 0) || (tnow / t =? 0) then Err ZeroDivisionError
    else Ok (alpha + tnow / t, beta, tnow * (1 / (tnow / t))).
Proof.
  unfold Binary64.updateRecall, Binary64.pydiv.
  destruct (t =? 0); [reflexivity | ]. cbn [bind orb].
  destruct (tnow / t =? 0); reflexivity.
Qed.

(** C10 (as amended).  On a successful quiz [updateRecall] returns, whenever
    [t] and the quotient [tnow / t] are not zero, exactly the triple
    [(alpha + tnow / t, beta, tnow * (1.0 / (tnow / t)))]: [beta] is returned
    unchanged, [alpha] is increased by the binary64 quotient, and the third
    component is the product the conversion from the GB1 model computes. *)
Theorem updateRecall_success_triple (alpha beta t tnow : float) :
  (t =? 0) = false -> (tnow / t =? 0) = false ->
  Binary64.updateRecall gammaln betaln exp log logsumexp least_squares
    (alpha, beta, t) true tnow
  = Ok (alpha + tnow / t, beta, tnow * (1 / (tnow / t))).
Proof.
  intros Ht Hd. rewrite updateRecall_success_cases, Ht, Hd. reflexivity.
Qed.


(** C2 (as amended).  No operation validates its arguments: none ever ends
    with [InvalidArgument], and [predictRecall] returns a number for every
    [alpha], [beta] and [tnow], of any sign, whenever [t] is not zero. *)
Theorem no_argument_check (alpha beta t tnow percentile : float)
    (exact result : bool) (independent : option float) (fuel : nat) :
  rejected (Binary64.predictRecall gammaln exp (alpha, beta, t) tnow exact
              independent) = false /\
  rejected (Binary64.updateRecall gammaln betaln exp log logsumexp least_squares
              (alpha, beta, t) result tnow) = false /\
  match Binary64.modelToPercentileDecay betaln exp log root_scalar fuel
          (alpha, beta, t) percentile with
  | Some r => rejected r = false
  | None => True
  end /\
  ((t =? 0) = false ->
   is_ok (Binary64.predictRecall gammaln exp (alpha, beta, t) tnow exact
            independent) = true).
Proof.
  split; [ | split; [ | split]].
  - unfold Binary64.predictRecall, Binary64.pydiv.
    destruct (t =? 0); reflexivity.
  - destruct result.
    + rewrite updateRecall_success_cases.
      destruct ((t =? 0) || (tnow / t =? 0)); reflexivity.
    + unfold Binary64.updateRecall, Binary64.failureMoments, Binary64.pydiv.
      destruct (t =? 0); [reflexivity | ]. cbn [bind].
      destruct (least_squares _ _ _ _) as [[nb nd] | ]; reflexivity.
  - unfold Binary64.modelToPercentileDecay.
    destruct (Binary64.scan _ fuel) as [[[[blow flow] bhigh] fhigh] | ];
      [ | exact I].
    destruct ((0 <? flow) && (fhigh <? 0)); [ | reflexivity].
    destruct (root_scalar _ _ _); reflexivity.
  - intros Ht. unfold Binary64.predictRecall.
    rewrite pydiv_nonzero by exact Ht. reflexivity.
Qed.

(** Where [alpha + tnow / t] absorbs [beta], the two values of [gammaln]
    cancel and [predictRecall] returns the cached term alone, whatever
    [tnow] is. *)
Lemma predictRecall_absorbed (alpha beta t tnow : float) (exact : bool) :
  (t =? 0) = false ->
  alpha + beta + tnow / t = alpha + tnow / t ->
  is_finite (gammaln (alpha + tnow / t)) = true ->
  (0 <? Binary64.cacheIndependent gammaln (alpha, beta, t)) = true ->
  Binary64.predictRecall gammaln exp (alpha, beta, t) tnow exact None
  = Ok (if exact then exp (Binary64.cacheIndependent gammaln (alpha, beta, t))
        else Binary64.cacheIndependent gammaln (alpha, beta, t)).
Proof.
  intros Ht Habs Hfin Hpos. unfold Binary64.predictRecall.
  rewrite pydiv_nonzero by exact Ht. cbn [bind Binary64.truthy].
  rewrite Habs, sub_diag by exact Hfin.
  unfold Binary64.cacheIndependent in Hpos. rewrite add_0_l by exact Hpos.
  reflexivity.
Qed.

(** C8, at the failing input: for the valid model [(3, 3, 10)] and
    [tnow = 1e18] both arguments of [gammaln] are the float [1e17], so the
    result is [exp (gammaln 6 - gammaln 3)], about 60, for every [gammaln]
    that is finite at [1e17] and every [exp] above 1 there. *)
Theorem predictRecall_exceeds_one :
  is_finite (gammaln 1e17) = true ->
  (0 <? gammaln 6 - gammaln 3) = true ->
  (1 <? exp (gammaln 6 - gammaln 3)) = true ->
  exists p,
    Binary64.predictRecall gammaln exp (3, 3, 10) 1e18 true None = Ok p /\
    p = exp (gammaln 6 - gammaln 3) /\
    (1 <? p) = true.
Proof.
  intros Hfin Hpos Hexp. eexists. split; [ | split; [reflexivity | exact Hexp]].
  apply predictRecall_absorbed; [reflexivity | reflexivity | exact Hfin | exact Hpos].
Qed.

(** C3, at the failing input: for the valid model [(3, 3, 10)] the recall
    predicted at [tnow = 1e18] is [exp (gammaln 6 - gammaln 3)], about 60,
    above the recall predicted at [tnow = 10], about 0.5. *)
Theorem predictRecall_not_monotone :
  is_finite (gammaln 1e17) = true ->
  (0 <? gammaln 6 - gammaln 3) = true ->
  (exp (gammaln 4 - gammaln 7 + (gammaln 6 - gammaln 3))
   <? exp (gammaln 6 - gammaln 3)) = true ->
  exists p1 p2,
    Binary64.predictRecall gammaln exp (3, 3, 10) 10 true None = Ok p1 /\
    Binary64.predictRecall gammaln exp (3, 3, 10) 1e18 true None = Ok p2 /\
    p2 = exp (gammaln 6 - gammaln 3) /\
    (10 <? 1e18) = true /\ (p1 <? p2) = true.
Proof.
  intros Hfin Hpos Hexp. do 2 eexists.
  split; [ | split; [ | split; [reflexivity | split]]].
  - reflexivity.
  - apply predictRecall_absorbed; [reflexivity | reflexivity | exact Hfin | exact Hpos].
  - reflexivity.
  - exact Hexp.
Qed.

(** When [f] is above zero at [-3] and below zero at [3], neither loop of
    the bracket scan runs. *)
Lemma scan_first_window (f : float -> float) (fuel : nat) :
  (0 <? f (-3)) = true -> (f 3 <? 0) = true ->
  Binary64.scan f fuel = Some (-3, f (-3), 3, f 3).
Proof.
  intros Hlow Hhigh. unfold Binary64.scan.
  change (- Binary64.bracket_width / 2) with (-3).
  change (Binary64.bracket_width / 2) with 3.
  assert (Binary64.scan_up f fuel (-3, f (-3), 3, f 3)
          = Some (-3, f (-3), 3, f 3)) as ->.
  { destruct fuel; cbn [Binary64.scan_up];
      rewrite (ltb_0_asym_r _ Hhigh), andb_false_r; reflexivity. }
  destruct fuel; cbn [Binary64.scan_down];
    rewrite (ltb_0_asym_l _ Hlow); reflexivity.
Qed.


End Binary64Claims.

(** ** The binary64 statements at concrete inputs *)

Section Binary64Instances.

Local Open Scope float_scope.
#[local] Set Warnings "-inexact-float".

Lemma updateRecall_success_triple_witness :
  Binary64.updateRecall Reference.gammaln Reference.betaln Reference.exp
    Reference.log Reference.logsumexp Reference.least_squares (3, 3, 7) true 9
  = Ok (3 + 9 / 7, 3, 9 * (1 / (9 / 7))).
Proof.
  apply (updateRecall_success_triple Reference.gammaln Reference.betaln
           Reference.exp Reference.log Reference.logsumexp
           Reference.least_squares 3 3 7 9); reflexivity.
Defined.

(** C10, refuted as stated: after a success at [tnow = 9] the model
    [(3, 3, 7)] comes back with the time [6.999999999999999], not [7]; and
    for the valid model [(3, 3, 1e200)] and [tnow = 1e-200] no triple comes
    back. *)
Lemma updateRecall_success_time_rounded :
  Binary64.updateRecall Reference.gammaln Reference.betaln Reference.exp
    Reference.log Reference.logsumexp Reference.least_squares (3, 3, 7) true 9
  = Ok (3 + 9 / 7, 3, 0x1.bffffffffffffp+2) /\
  (0x1.bffffffffffffp+2 <? 7) = true /\
  Binary64.updateRecall Reference.gammaln Reference.betaln Reference.exp
    Reference.log Reference.logsumexp Reference.least_squares
    (3, 3, 1e200) true 1e-200
  = Err ZeroDivisionError.
Proof. repeat split; reflexivity. Qed.



(** C2, refuted as stated: the non-positive [alpha = -1] and the
    non-positive [tnow = -5] are computed with, not rejected. *)
Lemma invalid_arguments_accepted :
  Binary64.updateRecall Reference.gammaln Reference.betaln Reference.exp
    Reference.log Reference.logsumexp Reference.least_squares
    (-1, 3, 10) true 5
  = Ok (-0.5, 3, 10) /\
  is_ok (Binary64.predictRecall Reference.gammaln Reference.exp
           (3, 3, 10) (-5) true None) = true.
Proof. split; reflexivity. Qed.

Lemma predictRecall_exceeds_one_witness :
  exists p,
    Binary64.predictRecall Reference.gammaln Reference.exp (3, 3, 10) 1e18
      true None = Ok p /\
    p = Reference.exp (Reference.gammaln 6 - Reference.gammaln 3) /\
    (1 <? p) = true.
Proof.
  apply (predictRecall_exceeds_one Reference.gammaln Reference.exp);
    vm_compute; reflexivity.
Defined.

Lemma predictRecall_not_monotone_witness :
  exists p1 p2,
    Binary64.predictRecall Reference.gammaln Reference.exp (3, 3, 10) 10
      true None = Ok p1 /\
    Binary64.predictRecall Reference.gammaln Reference.exp (3, 3, 10) 1e18
      true None = Ok p2 /\
    p2 = Reference.exp (Reference.gammaln 6 - Reference.gammaln 3) /\
    (10 <? 1e18) = true /\ (p1 <? p2) = true.
Proof.
  apply (predictRecall_not_monotone Reference.gammaln Reference.exp);
    vm_compute; reflexivity.
Defined.


End Binary64Instances.

(** ** Further properties in binary64 *)

Section Binary64Properties.

Local Open Scope float_scope.
#[local] Set Warnings "-inexact-float".

Variable gammaln : float -> float.
Variable betaln : float -> float -> float.
Variable exp : float -> float.
Variable log : float -> float.
Variable logsumexp : list float -> list float -> float.
Variable least_squares :
  (float * float -> list float) -> float * float -> float * float ->
  float * float -> option (float * float).
Variable root_scalar : (float -> float) -> float -> float -> option float.

(** A successful quiz exactly at the reference time adds exactly [1] to
    [alpha] and hands back [beta] and [t] bit for bit, for every finite
    [t] that is not zero. *)
Theorem updateRecall_success_at_reference_time (alpha beta t : float) :
  is_finite t = true -> (t =? 0) = false ->
  Binary64.updateRecall gammaln betaln exp log logsumexp least_squares
    (alpha, beta, t) true t
  = Ok (alpha + 1, beta, t).
Proof.
  intros Ft Nt. rewrite updateRecall_success_cases.
  rewrite (div_diag t Ft Nt), Nt. change (1 =? 0) with false. cbn [orb].
  change (1 / 1) with 1. now rewrite mul_1_r.
Qed.

(** Right after a review the two differences of [gammaln] cancel exactly:
    at [tnow = 0] the log-domain result is [0.0] and the exact one is
    [exp 0.0], for every model with positive parameters whose difference
    [gammaln alpha - gammaln (alpha + beta)] does not overflow. *)
Theorem predictRecall_after_review (alpha beta t : float) (exact : bool) :
  (0 <? alpha) = true -> (0 <? beta) = true -> (0 <? t) = true ->
  is_finite (gammaln alpha - gammaln (alpha + beta)) = true ->
  Binary64.predictRecall gammaln exp (alpha, beta, t) 0 exact None
  = Ok (if exact then exp 0 else 0).
Proof.
  intros Ha Hb Ht Fd. unfold Binary64.predictRecall.
  rewrite pydiv_nonzero by (now apply eqb_0_pos).
  cbn [bind Binary64.truthy]. rewrite (div_0_l t Ht).
  rewrite (add_0_r alpha Ha).
  rewrite (add_0_r (alpha + beta))
    by (apply add_pos_nonneg; [exact Ha | now apply ltb_0_nonneg]).
  now rewrite (sub_add_cancel _ _ Fd).
Qed.

(** Where [gammaln] overflows at both of its arguments the prediction is
    NaN, in the log domain and, through [exp], in the exact one. *)
Theorem predictRecall_gammaln_overflow (alpha beta t tnow : float)
    (exact : bool) :
  (t =? 0) = false ->
  gammaln (alpha + tnow / t) = infinity ->
  gammaln (alpha + beta + tnow / t) = infinity ->
  Binary64.predictRecall gammaln exp (alpha, beta, t) tnow exact None
  = Ok (if exact then exp nan else nan).
Proof.
  intros Nt G1 G2. unfold Binary64.predictRecall.
  rewrite pydiv_nonzero by exact Nt. cbn [bind Binary64.truthy].
  rewrite G1, G2. change (infinity - infinity) with nan.
  now rewrite add_nan_l.
Qed.

Lemma scan_up_carries (f : float -> float) (fuel : nat) :
  forall st st', carries f st -> Binary64.scan_up f fuel st = Some st' ->
                 carries f st'.
Proof.
  induction fuel as [ | fuel IH]; intros [[[blow flow] bhigh] fhigh] st' C;
    cbn [Binary64.scan_up]; destruct ((0 <? flow) && (0 <? fhigh));
    try discriminate; try (intros [= <-]; exact C).
  apply IH. destruct C as [_ C]. now split.
Qed.

Lemma scan_down_carries (f : float -> float) (fuel : nat) :
  forall st st', carries f st -> Binary64.scan_down f fuel st = Some st' ->
                 carries f st'.
Proof.
  induction fuel as [ | fuel IH]; intros [[[blow flow] bhigh] fhigh] st' C;
    cbn [Binary64.scan_down]; destruct ((flow <? 0) && (fhigh <? 0));
    try discriminate; try (intros [= <-]; exact C).
  apply IH. destruct C as [C _]. now split.
Qed.

(** The root solver is only ever called on a window over which [f] changes
    sign strictly: whenever [modelToPercentileDecay] ends, it has raised
    [AssertionError], or [f] is above zero at the lower end and below zero
    at the upper end of the window handed to [root_scalar], and the result
    is [exp root * t0] for the root returned, or the solver's failure. *)
Theorem solver_called_on_sign_change (fuel : nat) (alpha beta t0 p : float) :
  match Binary64.modelToPercentileDecay betaln exp log root_scalar fuel
          (alpha, beta, t0) p with
  | None => True
  | Some r =>
      r = Err AssertionError \/
      exists blow bhigh,
        (0 <? Binary64.decay_f betaln exp log (alpha, beta, t0) p blow) = true /\
        (Binary64.decay_f betaln exp log (alpha, beta, t0) p bhigh <? 0) = true /\
        r = match root_scalar (Binary64.decay_f betaln exp log (alpha, beta, t0) p)
                    blow bhigh with
            | Some root => Ok (exp root * t0)
            | None => Err SolverError
            end
  end.
Proof.
  unfold Binary64.modelToPercentileDecay.
  set (f := Binary64.decay_f betaln exp log (alpha, beta, t0) p).
  destruct (Binary64.scan f fuel) as [[[[blow flow] bhigh] fhigh] | ] eqn:E;
    [ | exact I].
  assert (carries f (blow, flow, bhigh, fhigh)) as [C1 C2].
  { unfold Binary64.scan in E.
    destruct (Binary64.scan_up f fuel _) as [st | ] eqn:U; [ | discriminate].
    refine (scan_down_carries f fuel st _ _ E).
    refine (scan_up_carries f fuel _ st _ U). now split. }
  destruct ((0 <? flow) && (fhigh <? 0)) eqn:A; [ | now left].
  right. apply andb_prop in A as [A1 A2]. exists blow, bhigh.
  rewrite <- C1, <- C2. now repeat split.
Qed.

End Binary64Properties.

Section Binary64PropertyInstances.

Local Open Scope float_scope.
#[local] Set Warnings "-inexact-float".

Lemma updateRecall_success_at_reference_time_witness :
  Binary64.updateRecall Reference.gammaln Reference.betaln Reference.exp
    Reference.log Reference.logsumexp Reference.least_squares (3, 3, 0.1) true 0.1
  = Ok (3 + 1, 3, 0.1).
Proof.
  apply (updateRecall_success_at_reference_time Reference.gammaln
           Reference.betaln Reference.exp Reference.log Reference.logsumexp
           Reference.least_squares 3 3 0.1); reflexivity.
Defined.

Lemma predictRecall_after_review_witness :
  Binary64.predictRecall Reference.gammaln Reference.exp (3, 3, 10) 0 true None
  = Ok (Reference.exp 0).
Proof.
  apply (predictRecall_after_review Reference.gammaln Reference.exp 3 3 10 true);
    vm_compute; reflexivity.
Defined.

Lemma predictRecall_gammaln_overflow_witness :
  Binary64.predictRecall Reference.gammaln Reference.exp (1e306, 1e306, 1) 1
    false None
  = Ok nan.
Proof.
  apply (predictRecall_gammaln_overflow Reference.gammaln Reference.exp
           1e306 1e306 1 1 false);
    vm_compute; reflexivity.
Defined.

End Binary64PropertyInstances.
